(** * Conic sections of JSXGraph: a shallow embedding of [src/element/conic.js]

    The file embeds the four element constructors of [conic.js]
    ([createEllipse], [createHyperbola], [createParabola], [createConic]) as
    state-passing functions over an abstract numeric interface, and proves
    properties of the quadratic form, the eigenvalue normalisation, the branch
    selector and the [suspendUpdate] cache contract. *)

From Stdlib Require Import QArith List Bool Reals Lra Psatz RNsatz.
Import ListNotations.

Set Implicit Arguments.

(** ** Numbers

    JavaScript numbers with the operations of [conic.js].  The code is written
    once, over this interface; the cache properties hold for every
    interpretation of it, the algebraic ones are proved for the exact
    arithmetic of the real numbers ([RNumber] below). *)

Class Number (num : Type) : Type := {
  lit : Q -> num;                        (* numeric literal *)
  add : num -> num -> num;
  sub : num -> num -> num;
  mul : num -> num -> num;
  div : num -> num -> num;
  neg : num -> num;                      (* unary minus *)
  Math_sqrt : num -> num;
  Math_cos : num -> num;
  Math_sin : num -> num;
  Math_tan : num -> num;
  Math_atan : num -> num;
  Math_abs : num -> num;
  Math_atan2 : num -> num -> num;
  Math_PI : num;
  ltb : num -> num -> bool;              (* x < y *)
  leb : num -> num -> bool;              (* x <= y *)
  eqb : num -> num -> bool               (* x === y *)
}.

Arguments lit {num _} q%_Q.

Declare Scope js_scope.
Delimit Scope js_scope with js.
Infix "+" := add : js_scope.
Infix "-" := sub : js_scope.
Infix "*" := mul : js_scope.
Infix "/" := div : js_scope.
Notation "- x" := (neg x) : js_scope.
Infix "<?" := ltb (at level 70) : js_scope.
Infix "<=?" := leb (at level 70) : js_scope.
Infix "=?" := eqb (at level 70) : js_scope.
Notation "x >? y" := (ltb y x) (at level 70) : js_scope.

(** ** Arrays of length three and 3x3 matrices *)

Inductive idx : Type := I0 | I1 | I2.

Definition all_idx : list idx := [I0; I1; I2].

(** [for (j = i; j < 3; j++)] *)
Definition idx_from (i : idx) : list idx :=
  match i with
  | I0 => [I0; I1; I2]
  | I1 => [I1; I2]
  | I2 => [I2]
  end.

(** [for (j = 0; j < i; j++)] *)
Definition idx_below (i : idx) : list idx :=
  match i with
  | I0 => []
  | I1 => [I0]
  | I2 => [I0; I1]
  end.

Record vec (A : Type) : Type := mkvec { e0 : A; e1 : A; e2 : A }.

Notation "[< a ; b ; c >]" := (mkvec a b c) (at level 0, a at level 99, b at level 99, c at level 99).

Definition vget {A} (v : vec A) (i : idx) : A :=
  match i with
  | I0 => e0 v
  | I1 => e1 v
  | I2 => e2 v
  end.

Definition vset {A} (v : vec A) (i : idx) (x : A) : vec A :=
  match i with
  | I0 => [< x; e1 v; e2 v >]
  | I1 => [< e0 v; x; e2 v >]
  | I2 => [< e0 v; e1 v; x >]
  end.

Definition mat (A : Type) : Type := vec (vec A).

Definition mget {A} (M : mat A) (i j : idx) : A := vget (vget M i) j.

Definition mset {A} (M : mat A) (i j : idx) (x : A) : mat A :=
  vset M i (vset (vget M i) j x).

Definition symmetric {A} (M : mat A) : Prop :=
  forall i j : idx, mget M i j = mget M j i.

(** A point element, read through its accessors [X()] and [Y()]. *)
Record point (A : Type) : Type := mkpoint { X : A; Y : A }.

(** A thrown [TypeError] (reading an index of [undefined]). *)
Inductive result (A : Type) : Type :=
  | Ok (a : A)
  | TypeError.
Arguments TypeError {A}.

(** [polarForm(phi, suspendUpdate)[i]], the body of [curve.X] (i = 1) and
    [curve.Y] (i = 2). *)
Definition component {A S} (i : idx) (r : result (vec A) * S) : result A * S :=
  match fst r with
  | Ok v => (Ok (vget v i), snd r)
  | TypeError => (TypeError, snd r)
  end.

Section LinearAlgebra.
Context {num : Type} `{Number num}.
Local Open Scope js_scope.

Definition zeros : mat num :=
  [< [< lit 0; lit 0; lit 0 >]; [< lit 0; lit 0; lit 0 >]; [< lit 0; lit 0; lit 0 >] >].

Definition identity : mat num :=
  [< [< lit 1; lit 0; lit 0 >]; [< lit 0; lit 1; lit 0 >]; [< lit 0; lit 0; lit 1 >] >].

(** Modelled from the spec: [Mat.innerProduct] of [math/math], the inner
    product of two 3-vectors (the linear-algebra primitives are external
    collaborators of [conic.js]). *)
Definition innerProduct (a b : vec num) : num :=
  e0 a * e0 b + e1 a * e1 b + e2 a * e2 b.

(** Modelled from the spec: [Mat.matVecMult], 3x3 matrix times 3-vector. *)
Definition matVecMult (M : mat num) (v : vec num) : vec num :=
  [< innerProduct (e0 M) v; innerProduct (e1 M) v; innerProduct (e2 M) v >].

(** Modelled from the spec: [Mat.transpose]. *)
Definition transpose (M : mat num) : mat num :=
  [< [< mget M I0 I0; mget M I1 I0; mget M I2 I0 >];
     [< mget M I0 I1; mget M I1 I1; mget M I2 I1 >];
     [< mget M I0 I2; mget M I1 I2; mget M I2 I2 >] >].

(** Modelled from the spec: [Mat.matMatMult], product of two 3x3 matrices. *)
Definition matMatMult (A B : mat num) : mat num :=
  let Bt := transpose B in
  [< [< innerProduct (e0 A) (e0 Bt); innerProduct (e0 A) (e1 Bt); innerProduct (e0 A) (e2 Bt) >];
     [< innerProduct (e1 A) (e0 Bt); innerProduct (e1 A) (e1 Bt); innerProduct (e1 A) (e2 Bt) >];
     [< innerProduct (e2 A) (e0 Bt); innerProduct (e2 A) (e1 Bt); innerProduct (e2 A) (e2 Bt) >] >].

(** Modelled from the spec: [Mat.crossProduct], the cross product of two
    3-vectors (the line through two points in homogeneous coordinates). *)
Definition crossProduct (a b : vec num) : vec num :=
  [< e1 a * e2 b - e2 a * e1 b;
     e2 a * e0 b - e0 a * e2 b;
     e0 a * e1 b - e1 a * e0 b >].

(** Modelled from the spec: [Point.Dist], the Euclidean distance of two
    points given by their user coordinates [(x, y)]. *)
Definition Dist (P Q : point num) : num :=
  Math_sqrt ((X P - X Q) * (X P - X Q) + (Y P - Y Q) * (Y P - Y Q)).

End LinearAlgebra.

(** ** Exact arithmetic: the real numbers *)

Definition Rltb (x y : R) : bool := if Rlt_dec x y then true else false.
Definition Rleb (x y : R) : bool := if Rle_dec x y then true else false.
Definition Reqb (x y : R) : bool := if Req_dec_T x y then true else false.

(** [Math.atan2(y, x)]: the angle of the point [(x, y)], in [(-PI, PI]]. *)
Definition Ratan2 (y x : R) : R :=
  if Rlt_dec 0 x then atan (y / x)
  else if Rlt_dec x 0 then
    (if Rle_dec 0 y then atan (y / x) + PI else atan (y / x) - PI)%R
  else if Rlt_dec 0 y then (PI / 2)%R
  else if Rlt_dec y 0 then (- PI / 2)%R
  else 0%R.

#[export] Instance RNumber : Number R := {|
  lit := Q2R;
  add := Rplus;
  sub := Rminus;
  mul := Rmult;
  div := Rdiv;
  neg := Ropp;
  Math_sqrt := sqrt;
  Math_cos := cos;
  Math_sin := sin;
  Math_tan := tan;
  Math_atan := atan;
  Math_abs := Rabs;
  Math_atan2 := Ratan2;
  Math_PI := PI;
  ltb := Rltb;
  leb := Rleb;
  eqb := Reqb
|}.


(** ** [JXG.createEllipse]

    The closure variables [rotationMatrix] and [curve.quadraticform] are the
    state; the foci and the third parent are live values, read anew at every
    call and therefore an argument of every call. *)

Module Ellipse.
Section Ellipse.
Context {num : Type} `{Number num}.
Local Open Scope js_scope.

(** [parents[2]]: the length of the major axis, or a point on the ellipse. *)
Inductive Axis : Type :=
  | AxisLength (len : num)
  | SurfacePoint (C : point num).

Record Inputs : Type := { F0 : point num; F1 : point num; axis : Axis }.

Record State : Type := {
  rotationMatrix : option (mat num);     (* [undefined] until the first update *)
  quadraticform : option (mat num)
}.

Definition init : State := {| rotationMatrix := None; quadraticform := None |}.

Definition majorAxis (inp : Inputs) : num :=
  match axis inp with
  | AxisLength len => len
  | SurfacePoint C => Dist C (F0 inp) + Dist C (F1 inp)
  end.

(** The point [M], the midpoint of the foci. *)
Definition M (inp : Inputs) : point num :=
  {| X := (X (F0 inp) + X (F1 inp)) * lit 0.5;
     Y := (Y (F0 inp) + Y (F1 inp)) * lit 0.5 |}.

Definition transformFunc (inp : Inputs) : mat num :=
  let ax := X (F0 inp) in
  let ay := Y (F0 inp) in
  let bx := X (F1 inp) in
  let by_ := Y (F1 inp) in
  let sgn := if bx - ax >? lit 0 then lit 1 else lit (-1) in
  let beta :=
    if Math_abs (bx - ax) >? lit 0.0000001
    then Math_atan2 (by_ - ay) (bx - ax) + (if sgn <? lit 0 then Math_PI else lit 0)
    else (if by_ - ay >? lit 0 then lit 0.5 else lit (-0.5)) * Math_PI in
  let co := Math_cos beta in
  let si := Math_sin beta in
  [< [< lit 1; lit 0; lit 0 >];
     [< X (M inp); co; - si >];
     [< Y (M inp); si; co >] >].

(** The entries of [transformMat], assigned one by one from the fresh
    [rotationMatrix]. *)
Definition transformMat (rot : mat num) (mx my : num) : mat num :=
  let T := identity in
  let T := mset T I0 I0 (mget rot I0 I0) in
  let T := mset T I0 I1 (lit 0) in
  let T := mset T I0 I2 (lit 0) in
  let T := mset T I1 I0 (mx * (lit 1 - mget rot I1 I1) + my * mget rot I1 I2) in
  let T := mset T I1 I1 (mget rot I1 I1) in
  let T := mset T I1 I2 (mget rot I2 I1) in
  let T := mset T I2 I0 (my * (lit 1 - mget rot I1 I1) - mx * mget rot I1 I2) in
  let T := mset T I2 I1 (mget rot I1 I2) in
  let T := mset T I2 I2 (mget rot I2 I2) in
  T.

(** The body of [if (!suspendUpdate) { ... }]. *)
Definition update (inp : Inputs) (a aa bb : num) : State :=
  let rot := transformFunc inp in
  let mx := X (M inp) in
  let my := Y (M inp) in
  let T := transformMat rot mx my in
  {| rotationMatrix := Some rot;
     quadraticform := Some
       (matMatMult (transpose T)
          (matMatMult
             [< [< lit (-1) + mx * mx / (a * a) + my * my / bb; - mx / aa; - mx / bb >];
                [< - mx / aa; lit 1 / aa; lit 0 >];
                [< - my / bb; lit 0; lit 1 / bb >] >]
             T)) |}.

Definition polarForm (inp : Inputs) (phi : num) (suspendUpdate : bool) (st : State)
  : result (vec num) * State :=
  let a := majorAxis inp * lit 0.5 in
  let aa := a * a in
  let e := Dist (F1 inp) (F0 inp) * lit 0.5 in
  let bb := aa - e * e in
  let b := Math_sqrt bb in
  let st := if negb suspendUpdate then update inp a aa bb else st in
  match rotationMatrix st with
  | Some rot => (Ok (matVecMult rot [< lit 1; a * Math_cos phi; b * Math_sin phi >]), st)
  | None => (TypeError, st)
  end.

Definition curve_X inp phi suspendUpdate st := component I1 (polarForm inp phi suspendUpdate st).
Definition curve_Y inp phi suspendUpdate st := component I2 (polarForm inp phi suspendUpdate st).

End Ellipse.
End Ellipse.

(** ** [JXG.createHyperbola] *)

Module Hyperbola.
Section Hyperbola.
Context {num : Type} `{Number num}.
Local Open Scope js_scope.

Inductive Axis : Type :=
  | AxisLength (len : num)
  | SurfacePoint (C : point num).

Record Inputs : Type := { F0 : point num; F1 : point num; axis : Axis }.

Record State : Type := {
  rotationMatrix : option (mat num);
  quadraticform : option (mat num)
}.

Definition init : State := {| rotationMatrix := None; quadraticform := None |}.

Definition majorAxis (inp : Inputs) : num :=
  match axis inp with
  | AxisLength len => len
  | SurfacePoint C => Dist C (F0 inp) - Dist C (F1 inp)
  end.

Definition M (inp : Inputs) : point num :=
  {| X := (X (F0 inp) + X (F1 inp)) * lit 0.5;
     Y := (Y (F0 inp) + Y (F1 inp)) * lit 0.5 |}.

Definition transformFunc (inp : Inputs) : mat num :=
  let ax := X (F0 inp) in
  let ay := Y (F0 inp) in
  let bx := X (F1 inp) in
  let by_ := Y (F1 inp) in
  let sgn := if bx - ax >? lit 0 then lit 1 else lit (-1) in
  let beta :=
    if Math_abs (bx - ax) >? lit 0.0000001
    then Math_atan2 (by_ - ay) (bx - ax) + (if sgn <? lit 0 then Math_PI else lit 0)
    else (if by_ - ay >? lit 0 then lit 0.5 else lit (-0.5)) * Math_PI in
  [< [< lit 1; lit 0; lit 0 >];
     [< X (M inp); Math_cos beta; - Math_sin beta >];
     [< Y (M inp); Math_sin beta; Math_cos beta >] >].

Definition transformMat (rot : mat num) (mx my : num) : mat num :=
  let T := identity in
  let T := mset T I0 I0 (mget rot I0 I0) in
  let T := mset T I0 I1 (lit 0.0) in
  let T := mset T I0 I2 (lit 0.0) in
  let T := mset T I1 I0 (mx * (lit 1 - mget rot I1 I1) + my * mget rot I1 I2) in
  let T := mset T I1 I1 (mget rot I1 I1) in
  let T := mset T I1 I2 (mget rot I2 I1) in
  let T := mset T I2 I0 (my * (lit 1 - mget rot I1 I1) - mx * mget rot I1 I2) in
  let T := mset T I2 I1 (mget rot I1 I2) in
  let T := mset T I2 I2 (mget rot I2 I2) in
  T.

Definition update (inp : Inputs) (aa bb : num) : State :=
  let rot := transformFunc inp in
  let mx := X (M inp) in
  let my := Y (M inp) in
  let T := transformMat rot mx my in
  {| rotationMatrix := Some rot;
     quadraticform := Some
       (matMatMult (transpose T)
          (matMatMult
             [< [< lit (-1) + mx * mx / aa + my * my / bb; - mx / aa; my / bb >];
                [< - mx / aa; lit 1 / aa; lit 0 >];
                [< my / bb; lit 0; lit (-1) / bb >] >]
             T)) |}.

(** Hyperbola is defined by (a*sec(t), b*tan(t)) and sec(t) = 1/cos(t). *)
Definition polarForm (inp : Inputs) (phi : num) (suspendUpdate : bool) (st : State)
  : result (vec num) * State :=
  let a := majorAxis inp * lit 0.5 in
  let aa := a * a in
  let e := Dist (F1 inp) (F0 inp) * lit 0.5 in
  let b := Math_sqrt (- a * a + e * e) in
  let bb := b * b in
  let st := if negb suspendUpdate then update inp aa bb else st in
  match rotationMatrix st with
  | Some rot => (Ok (matVecMult rot [< lit 1; a / Math_cos phi; b * Math_tan phi >]), st)
  | None => (TypeError, st)
  end.

Definition curve_X inp phi suspendUpdate st := component I1 (polarForm inp phi suspendUpdate st).
Definition curve_Y inp phi suspendUpdate st := component I2 (polarForm inp phi suspendUpdate st).

End Hyperbola.
End Hyperbola.

(** ** [JXG.createParabola] *)

Module Parabola.
Section Parabola.
Context {num : Type} `{Number num}.
Local Open Scope js_scope.

(** [Geometry.meetLineLine(l1, l2, 0, board).usrCoords], the intersection of
    two lines given in homogeneous coordinates; an external collaborator. *)
Variable meetLineLine : vec num -> vec num -> vec num.

(** The live values: the focus [F1.coords.usrCoords], the directrix
    [l.stdform] and its slope [l.getSlope()]. *)
Record Inputs : Type := { F1 : vec num; stdform : vec num; getSlope : num }.

Record State : Type := {
  rotationMatrix : option (mat num);
  quadraticform : option (mat num)
}.

Definition init : State := {| rotationMatrix := None; quadraticform := None |}.

(** The point [M]: the foot of the perpendicular from the focus to the
    directrix. *)
Definition M (inp : Inputs) : vec num :=
  let v := [< lit 0; e1 (stdform inp); e2 (stdform inp) >] in
  let v := crossProduct v (F1 inp) in
  meetLineLine v (stdform inp).

(** [P.X()] and [P.Y()] of a point with user coordinates [u]. *)
Definition usr (u : vec num) : point num := {| X := e1 u; Y := e2 u |}.

Definition transformFunc (inp : Inputs) : mat num :=
  let M := usr (M inp) in
  let F1 := usr (F1 inp) in
  let beta := Math_atan (getSlope inp) in
  let x := (X M + X F1) * lit 0.5 in
  let y := (Y M + Y F1) * lit 0.5 in
  let beta := beta +
    (if (Y F1 - Y M <? lit 0) || ((Y F1 =? Y M) && (X F1 >? X M)) then Math_PI else lit 0) in
  [< [< lit 1; lit 0; lit 0 >];
     [< x * (lit 1 - Math_cos beta) + y * Math_sin beta; Math_cos beta; - Math_sin beta >];
     [< y * (lit 1 - Math_cos beta) - x * Math_sin beta; Math_sin beta; Math_cos beta >] >].

Definition transformMat (rot : mat num) (a b : num) : mat num :=
  let T := identity in
  let T := mset T I0 I0 (mget rot I0 I0) in
  let T := mset T I0 I1 (lit 0) in
  let T := mset T I0 I2 (lit 0) in
  let T := mset T I1 I0 (a * (lit 1 - mget rot I1 I1) + b * mget rot I1 I2) in
  let T := mset T I1 I1 (mget rot I1 I1) in
  let T := mset T I1 I2 (mget rot I2 I1) in
  let T := mset T I2 I0 (b * (lit 1 - mget rot I1 I1) - a * mget rot I1 I2) in
  let T := mset T I2 I1 (mget rot I1 I2) in
  let T := mset T I2 I2 (mget rot I2 I2) in
  T.

Definition update (inp : Inputs) (e e4 a b : num) : State :=
  let rot := transformFunc inp in
  let T := transformMat rot a b in
  {| rotationMatrix := Some rot;
     quadraticform := Some
       (matMatMult (transpose T)
          (matMatMult
             [< [< - b * e4 - a * a; a; lit 2 * e >];
                [< a; lit (-1); lit 0 >];
                [< lit 2 * e; lit 0; lit 0 >] >]
             T)) |}.

Definition polarForm (inp : Inputs) (t : num) (suspendUpdate : bool) (st : State)
  : result (vec num) * State :=
  let M := usr (M inp) in
  let F1 := usr (F1 inp) in
  let e := Dist M F1 * lit 0.5 in
  let e4 := e * lit 4 in
  let a := (X M + X F1) * lit 0.5 in
  let b := (Y M + Y F1) * lit 0.5 in
  let st := if negb suspendUpdate then update inp e e4 a b else st in
  match rotationMatrix st with
  | Some rot => (Ok (matVecMult rot [< e4; e4 * (t + a); t * t + b * e4 >]), st)
  | None => (TypeError, st)
  end.

Definition curve_X inp phi suspendUpdate st := component I1 (polarForm inp phi suspendUpdate st).
Definition curve_Y inp phi suspendUpdate st := component I2 (polarForm inp phi suspendUpdate st).

End Parabola.
End Parabola.

(** ** [JXG.createConic]: the conic through five points or with six coefficients *)

Module Conic.
Section Conic.
Context {num : Type} `{Number num}.
Local Open Scope js_scope.

(** [Numerics.Jacobi(M)]: the eigensolver, an external collaborator.  It
    returns the pair [[A, V]]: the diagonal of [A] holds the eigenvalues,
    [V] the eigenvectors. *)
Variable Jacobi : mat num -> mat num * mat num.

(** The parents, read anew at every update: the user coordinates of five
    points ([givenByPoints]), or the values of six numbers or functions. *)
Inductive Inputs : Type :=
  | FivePoints (p0 p1 p2 p3 p4 : vec num)
  | SixCoefficients (parents0 parents1 parents2 parents3 parents4 parents5 : num).

(** What the update block assigns together: [eigen], [a], [b] and [c]. *)
Record Frame : Type := {
  eigen : mat num * mat num;
  a : num;
  b : num;
  c : num
}.

Record State : Type := {
  rotationMatrix : mat num;
  M : mat num;
  quadraticform : option (mat num);      (* refers to the array [M] once assigned *)
  frame : option Frame;                  (* [undefined] until the first update *)
  c1c2 : option (mat num * mat num);
  p : list (vec num)
}.

Definition init : State :=
  {| rotationMatrix := identity; M := identity; quadraticform := None;
     frame := None; c1c2 := None; p := [] |}.

(** The upper triangle of [definingMat] holds the functions reading the
    parents; the lower triangle keeps the number 0 and is never called. *)
Definition definingMat (parents0 parents1 parents2 parents3 parents4 parents5 : num)
    (i j : idx) : num :=
  match i, j with
  | I0, I0 => parents2
  | I0, I1 => parents4
  | I0, I2 => parents5
  | I1, I1 => parents0
  | I1, I2 => parents3
  | I2, I2 => parents1
  | _, _ => lit 0
  end.

Definition idx_ltb (i j : idx) : bool :=
  match i, j with
  | I0, I1 | I0, I2 | I1, I2 => true
  | _, _ => false
  end.

(** sym(A) = A + A^t.  Manipulates A in place. *)
Definition sym (A : mat num) : mat num :=
  let A := fold_left (fun A i =>
             fold_left (fun A j => mset A i j (mget A i j + mget A j i)) (idx_from i) A)
           all_idx A in
  fold_left (fun A i =>
    fold_left (fun A j => mset A i j (mget A j i)) (idx_below i) A)
  all_idx A.

(** degconic(v,w) = sym(v*w^t) *)
Definition degconic (v w : vec num) : mat num :=
  let mat := fold_left (fun mat i =>
               fold_left (fun mat j => mset mat i j (vget v i * vget w j)) all_idx mat)
             all_idx zeros in
  sym mat.

(** (p^t*B*p)*A-(p^t*A*p)*B *)
Definition fitConic (A B : mat num) (p : vec num) : mat num :=
  let Mv := matVecMult B p in
  let pBp := innerProduct p Mv in
  let Mv := matVecMult A p in
  let pAp := innerProduct p Mv in
  fold_left (fun mat i =>
    fold_left (fun mat j => mset mat i j (pBp * mget A i j - pAp * mget B i j)) all_idx mat)
  all_idx zeros.

(** The six-coefficient loop, filling [M] in place. *)
Definition fill (definingMat : idx -> idx -> num) (M : mat num) : mat num :=
  fold_left (fun M i =>
    fold_left (fun M j =>
      let M := mset M i j (definingMat i j) in
      if idx_ltb i j then mset M j i (mget M i j) else M)
    (idx_from i) M)
  all_idx M.

(** Scale the eigenvalues such that the first eigenvalue is positive. *)
Definition scale (A : mat num) : mat num :=
  if mget A I0 I0 <? lit 0 then
    let A := mset A I0 I0 (mget A I0 I0 * lit (-1)) in
    let A := mset A I1 I1 (mget A I1 I1 * lit (-1)) in
    let A := mset A I2 I2 (mget A I2 I2 * lit (-1)) in
    A
  else A.

(** The loop headed "Normalize the Eigenvectors": it computes the length of
    every column of [eigen[1]] into the local [len]; the division by [len]
    is commented out, so [eigen[1]] is not written. *)
Definition column_lengths (V : mat num) : num :=
  fold_left (fun _ i =>
    let len := fold_left (fun len j => len + mget V j i * mget V j i) all_idx (lit 0.0) in
    Math_sqrt len)
  all_idx (lit 0.0).

(** The body of [if (!suspendUpdate) { ... }]. *)
Definition update (inp : Inputs) (st : State) : State :=
  let st :=
    match inp with
    | FivePoints p0 p1 p2 p3 p4 =>
        let c1 := degconic (crossProduct p0 p1) (crossProduct p2 p3) in
        let c2 := degconic (crossProduct p0 p2) (crossProduct p1 p3) in
        {| rotationMatrix := rotationMatrix st;
           M := fitConic c1 c2 p4;
           quadraticform := quadraticform st;
           frame := frame st;
           c1c2 := Some (c1, c2);
           p := [p0; p1; p2; p3; p4] |}
    | SixCoefficients q0 q1 q2 q3 q4 q5 =>
        {| rotationMatrix := rotationMatrix st;
           M := fill (definingMat q0 q1 q2 q3 q4 q5) (M st);
           quadraticform := quadraticform st;
           frame := frame st;
           c1c2 := c1c2 st;
           p := p st |}
    end in
  let eigen := Jacobi (M st) in
  let eigen := (scale (fst eigen), snd eigen) in
  let len := column_lengths (snd eigen) in
  {| rotationMatrix := snd eigen;
     M := M st;
     quadraticform := Some (M st);
     frame := Some {| eigen := eigen;
                      c := Math_sqrt (Math_abs (mget (fst eigen) I0 I0));
                      a := Math_sqrt (Math_abs (mget (fst eigen) I1 I1));
                      b := Math_sqrt (Math_abs (mget (fst eigen) I2 I2)) |};
     c1c2 := c1c2 st;
     p := p st |}.

(** The three branches of the evaluator. *)
Inductive Branch : Type := Branch1 | Branch2 | Branch3.

(** The chain [if ... else if ... else if ...] on [eigen[0][1][1]] and
    [eigen[0][2][2]]; [None] is the path on which [v] stays [undefined]. *)
Definition select (l1 l2 : num) : option Branch :=
  if (l1 <=? lit 0.0) && (l2 <=? lit 0.0) then Some Branch1
  else if (l1 <=? lit 0.0) && (l2 >? lit 0.0) then Some Branch2
  else if l2 <? lit 0.0 then Some Branch3
  else None.

Definition polarForm (inp : Inputs) (phi : num) (suspendUpdate : bool) (st : State)
  : result (vec num) * State :=
  let st := if negb suspendUpdate then update inp st else st in
  match frame st with
  | None => (TypeError, st)
  | Some fr =>
      let rot := rotationMatrix st in
      let v :=
        match select (mget (fst (eigen fr)) I1 I1) (mget (fst (eigen fr)) I2 I2) with
        | Some Branch1 =>
            Some (matVecMult rot [< lit 1 / c fr; Math_cos phi / a fr; Math_sin phi / b fr >])
        | Some Branch2 =>
            Some (matVecMult rot [< Math_cos phi / c fr; lit 1 / a fr; Math_sin phi / b fr >])
        | Some Branch3 =>
            Some (matVecMult rot [< Math_sin phi / c fr; Math_cos phi / a fr; lit 1 / b fr >])
        | None => None
        end in
      (* Normalize *)
      match v with
      | Some v => (Ok [< lit 1.0; e1 v / e0 v; e2 v / e0 v >], st)
      | None => (TypeError, st)
      end
  end.

Definition curve_X inp phi suspendUpdate st := component I1 (polarForm inp phi suspendUpdate st).
Definition curve_Y inp phi suspendUpdate st := component I2 (polarForm inp phi suspendUpdate st).

(** [curve.midpoint]: the centre, from the current [curve.quadraticform]. *)
Definition midpoint (st : State) : result (vec num) :=
  match quadraticform st with
  | Some m =>
      Ok [< mget m I1 I1 * mget m I2 I2 - mget m I1 I2 * mget m I1 I2;
            mget m I1 I2 * mget m I0 I2 - mget m I2 I2 * mget m I0 I1;
            mget m I0 I1 * mget m I1 I2 - mget m I1 I1 * mget m I0 I2 >]
  | None => TypeError
  end.

End Conic.
End Conic.


(** ** The evaluator of the specification

    The specification speaks of [evaluate(phi, recompute)]: [recompute = true]
    is the call that re-derives the quadratic form and the frame, that is,
    [polarForm(phi, suspendUpdate)] with a falsy [suspendUpdate];
    [recompute = false] is the suspended call. *)

Definition ellipse_evaluate {num} `{Number num}
    (inp : Ellipse.Inputs) (phi : num) (recompute : bool) (st : Ellipse.State) :=
  Ellipse.polarForm inp phi (negb recompute) st.

Definition hyperbola_evaluate {num} `{Number num}
    (inp : Hyperbola.Inputs) (phi : num) (recompute : bool) (st : Hyperbola.State) :=
  Hyperbola.polarForm inp phi (negb recompute) st.

Definition parabola_evaluate {num} `{Number num} (meetLineLine : vec num -> vec num -> vec num)
    (inp : Parabola.Inputs) (t : num) (recompute : bool) (st : Parabola.State) :=
  Parabola.polarForm meetLineLine inp t (negb recompute) st.

Definition conic_evaluate {num} `{Number num} (Jacobi : mat num -> mat num * mat num)
    (inp : Conic.Inputs) (phi : num) (recompute : bool) (st : Conic.State) :=
  Conic.polarForm Jacobi inp phi (negb recompute) st.

(** ** The five-point pencil, as the specification words it *)

Section Pencil.
Context {num : Type} `{Number num}.
Local Open Scope js_scope.

(** The outer product [v (x) w]. *)
Definition outer (v w : vec num) : mat num :=
  [< [< e0 v * e0 w; e0 v * e1 w; e0 v * e2 w >];
     [< e1 v * e0 w; e1 v * e1 w; e1 v * e2 w >];
     [< e2 v * e0 w; e2 v * e1 w; e2 v * e2 w >] >].

Definition vec_map2 (f : num -> num -> num) (v w : vec num) : vec num :=
  [< f (e0 v) (e0 w); f (e1 v) (e1 w); f (e2 v) (e2 w) >].

Definition mat_map2 (f : num -> num -> num) (A B : mat num) : mat num :=
  [< vec_map2 f (e0 A) (e0 B); vec_map2 f (e1 A) (e1 B); vec_map2 f (e2 A) (e2 B) >].

(** [sym(A) := A + A^t] *)
Definition sym_spec (A : mat num) : mat num := mat_map2 add A (transpose A).

(** [p^t M p] *)
Definition quad (M : mat num) (p : vec num) : num := innerProduct p (matVecMult M p).

(** [k . A] *)
Definition scal (k : num) (A : mat num) : mat num :=
  mat_map2 (fun x _ => k * x) A A.

(** [M = (p4^t c2 p4) . c1 - (p4^t c1 p4) . c2] with [c1 = sym(l01 (x) l23)],
    [c2 = sym(l02 (x) l13)] and [lij = pi x pj]. *)
Definition pencil (p0 p1 p2 p3 p4 : vec num) : mat num :=
  let l01 := crossProduct p0 p1 in
  let l23 := crossProduct p2 p3 in
  let l02 := crossProduct p0 p2 in
  let l13 := crossProduct p1 p3 in
  let c1 := sym_spec (outer l01 l23) in
  let c2 := sym_spec (outer l02 l13) in
  mat_map2 sub (scal (quad c2 p4) c1) (scal (quad c1 p4) c2).

End Pencil.

(** ** The ellipse frame, as the specification words it (exact arithmetic) *)

Local Open Scope R_scope.

(** The angle of the segment [f0 -> f1]: [atan2] with the sign correction,
    and the vertical branch when [abs dx <= 1e-7]. *)
Definition foci_angle (f0 f1 : point R) : R :=
  let dx := X f1 - X f0 in
  let dy := Y f1 - Y f0 in
  if Rle_dec (Rabs dx) (1 / 10000000) then
    if Rlt_dec 0 dy then PI / 2 else - (PI / 2)
  else
    Ratan2 dy dx + (if Rlt_dec 0 dx then 0 else PI).

(** The similarity transform: translate to [mid], rotate by [beta]. *)
Definition similarity (mid : point R) (beta : R) : mat R :=
  [< [< 1; 0; 0 >];
     [< X mid; cos beta; - sin beta >];
     [< Y mid; sin beta; cos beta >] >].

Definition midpoint_of (f0 f1 : point R) : point R :=
  {| X := (X f0 + X f1) / 2; Y := (Y f0 + Y f1) / 2 |}.

(** ** An eigensolver on diagonal matrices *)

(** Modelled from the spec: [Numerics.Jacobi] on a matrix that is already
    diagonal.  The eigen-decomposition of a diagonal matrix needs no rotation:
    the eigenvalues are its diagonal and the eigenvectors the unit vectors. *)
Definition Jacobi_diagonal (M : mat R) : mat R * mat R := (M, identity).

(** ** Concrete inputs *)

(** The ellipse with foci (1,0) and (3,0) and major axis 4. *)
Definition ellipse_1_3 : Ellipse.Inputs :=
  {| Ellipse.F0 := mkpoint 1 0; Ellipse.F1 := mkpoint 3 0; Ellipse.axis := Ellipse.AxisLength 4 |}.

(** The same foci, major axis 6. *)
Definition ellipse_1_3_wide : Ellipse.Inputs :=
  {| Ellipse.F0 := mkpoint 1 0; Ellipse.F1 := mkpoint 3 0; Ellipse.axis := Ellipse.AxisLength 6 |}.

(** The ellipse with foci (-1,4) and (-1,-4) and major axis 10. *)
Definition ellipse_vertical : Ellipse.Inputs :=
  {| Ellipse.F0 := mkpoint (-1) 4; Ellipse.F1 := mkpoint (-1) (-4);
     Ellipse.axis := Ellipse.AxisLength 10 |}.

(** The five points of the documentation example: (1,5), (1,2), (2,0), (0,0), (-1,5). *)
Definition five_points_example : Conic.Inputs :=
  Conic.FivePoints [< 1; 1; 5 >] [< 1; 1; 2 >] [< 1; 2; 0 >] [< 1; 0; 0 >] [< 1; -1; 5 >].

(** Six coefficients (a00, a11, a22, a01, a02, a12) = (1, 1, -1, 0, 0, 0): the
    unit circle, with quadratic form diag(-1, 1, 1). *)
Definition unit_circle : Conic.Inputs := Conic.SixCoefficients 1 1 (-1) 0 0 0.

(** Six coefficients (1, 1, 1, 0, 0, 0): the definite form diag(1, 1, 1). *)
Definition definite_form : Conic.Inputs := Conic.SixCoefficients 1 1 1 0 0 0.

(** A parabola with focus (0,2) and directrix y = 0; the foot of the
    perpendicular is the origin. *)
Definition parabola_example : Parabola.Inputs :=
  {| Parabola.F1 := [< 1; 0; 2 >]; Parabola.stdform := [< 0; 0; 1 >]; Parabola.getSlope := 0 |}.

(** Modelled from the spec: the line-line intersection behind the point [M]
    of the parabola ([Geometry.meetLineLine]): the cross product of the two
    lines, scaled to a first coordinate 1 when it is a finite point. *)
Definition meet (l1 l2 : vec R) : vec R :=
  let s := crossProduct l1 l2 in
  if Req_dec_T (e0 s) 0 then s else [< 1; e1 s / e0 s; e2 s / e0 s >].

(** The hyperbola with foci (-1,5) and (-1,-3) and major axis 6. *)
Definition hyperbola_vertical : Hyperbola.Inputs :=
  {| Hyperbola.F0 := mkpoint (-1) 5; Hyperbola.F1 := mkpoint (-1) (-3);
     Hyperbola.axis := Hyperbola.AxisLength 6 |}.

(** Five points of which the first two coincide. *)
Definition five_points_repeated : Conic.Inputs :=
  Conic.FivePoints [< 1; 1; 5 >] [< 1; 1; 5 >] [< 1; 2; 0 >] [< 1; 0; 0 >] [< 1; -1; 5 >].

(** ** Geometry in which properties of the curves are stated *)

(** The image of the point [p] under the homogeneous matrix [m]. *)
Definition image (m : mat R) (p : point R) : point R :=
  let v := matVecMult m [< 1; X p; Y p >] in
  {| X := e1 v; Y := e2 v |}.

(** The distance from [p] to the line through [m] with slope [s]. *)
Definition line_distance (p m : point R) (s : R) : R :=
  Rabs (s * (X p - X m) - (Y p - Y m)) / sqrt (1 + s * s).

(** ** Sequences of calls

    The curve renderer calls [polarForm] again and again, with and without
    [suspendUpdate]; a call is the triple (live inputs, parameter,
    suspendUpdate). *)

(** The state left by a sequence of calls. *)
Definition after {I S A} (step : I -> S -> result A * S) (calls : list I) (st : S) : S :=
  fold_left (fun st c => snd (step c st)) calls st.

Definition suspended {I num} (c : I * num * bool) : bool := snd c.

Section Calls.
Context {num : Type} `{Number num}.

Definition ellipse_call (c : Ellipse.Inputs * num * bool) :=
  Ellipse.polarForm (fst (fst c)) (snd (fst c)) (snd c).

Definition hyperbola_call (c : Hyperbola.Inputs * num * bool) :=
  Hyperbola.polarForm (fst (fst c)) (snd (fst c)) (snd c).

Definition parabola_call (meetLineLine : vec num -> vec num -> vec num)
    (c : Parabola.Inputs * num * bool) :=
  Parabola.polarForm meetLineLine (fst (fst c)) (snd (fst c)) (snd c).

Definition conic_call (Jacobi : mat num -> mat num * mat num) (c : Conic.Inputs * num * bool) :=
  Conic.polarForm Jacobi (fst (fst c)) (snd (fst c)) (snd c).

End Calls.

(** * Properties *)

(** ** Real arithmetic behind the numeric interface *)

Lemma Rltb_true (x y : R) : Rltb x y = true <-> x < y.
Proof. unfold Rltb; destruct (Rlt_dec x y); split; intros; try easy. Qed.

Lemma Rltb_false (x y : R) : Rltb x y = false <-> y <= x.
Proof. unfold Rltb; destruct (Rlt_dec x y); split; intros; try easy; lra. Qed.

Lemma Rleb_true (x y : R) : Rleb x y = true <-> x <= y.
Proof. unfold Rleb; destruct (Rle_dec x y); split; intros; try easy. Qed.

Lemma Rleb_false (x y : R) : Rleb x y = false <-> y < x.
Proof. unfold Rleb; destruct (Rle_dec x y); split; intros; try easy; lra. Qed.

(** Unfolds the numeric interface at [RNumber] down to the operations of [R]. *)
Ltac to_R :=
  cbv [lit add sub mul div neg Math_sqrt Math_cos Math_sin Math_tan Math_atan
       Math_abs Math_atan2 Math_PI ltb leb eqb RNumber Q2R Qnum Qden].

(** Unfolds the embedding as well, leaving a term of real arithmetic. *)
Ltac run_R :=
  cbv -[Rplus Rminus Rmult Rdiv Ropp Rinv sqrt cos sin tan atan Rabs PI IZR
        Rlt_dec Rle_dec Req_dec_T Ratan2 Rltb Rleb Reqb Rlt Rle Rgt Rge].

(** Settles the comparisons of a goal whose operands [lra] can order. *)
Ltac Rcompare :=
  repeat match goal with
  | |- context [Rltb ?x ?y] =>
      first [ replace (Rltb x y) with true by (symmetry; apply Rltb_true; lra)
            | replace (Rltb x y) with false by (symmetry; apply Rltb_false; lra) ]
  | |- context [Rleb ?x ?y] =>
      first [ replace (Rleb x y) with true by (symmetry; apply Rleb_true; lra)
            | replace (Rleb x y) with false by (symmetry; apply Rleb_false; lra) ]
  end.

Example lit_half : (lit 0.5 : R) = 1 / 2.
Proof. to_R. lra. Qed.

Example lit_eps : (lit 0.0000001 : R) = 1 / 10000000.
Proof. to_R. lra. Qed.

Example lit_minus_one : (lit (-1) : R) = -1.
Proof. to_R. lra. Qed.

(** ** The cache contract, for every interpretation of the numbers *)

Section CacheContract.
Context {num : Type} `{Number num}.
Local Open Scope js_scope.

(** A suspended call returns the state it was given. *)
Lemma ellipse_suspended_state (inp : Ellipse.Inputs) (phi : num) (st : Ellipse.State) :
  snd (Ellipse.polarForm inp phi true st) = st.
Proof. unfold Ellipse.polarForm; simpl. now destruct (Ellipse.rotationMatrix st). Qed.

Lemma hyperbola_suspended_state (inp : Hyperbola.Inputs) (phi : num) (st : Hyperbola.State) :
  snd (Hyperbola.polarForm inp phi true st) = st.
Proof. unfold Hyperbola.polarForm; simpl. now destruct (Hyperbola.rotationMatrix st). Qed.

Lemma parabola_suspended_state mll (inp : Parabola.Inputs) (t : num) (st : Parabola.State) :
  snd (Parabola.polarForm mll inp t true st) = st.
Proof. unfold Parabola.polarForm; simpl. now destruct (Parabola.rotationMatrix st). Qed.

Lemma conic_suspended_state J (inp : Conic.Inputs) (phi : num) (st : Conic.State) :
  snd (Conic.polarForm J inp phi true st) = st.
Proof.
  unfold Conic.polarForm; simpl.
  destruct (Conic.frame st) as [ fr | ]; [ | reflexivity ].
  destruct (Conic.select _ _) as [ br | ]; [ destruct br | ]; reflexivity.
Qed.

(** The state after a call with [recompute = true] is the updated one. *)
Lemma conic_recompute_state J (inp : Conic.Inputs) (phi : num) (st : Conic.State) :
  snd (conic_evaluate J inp phi true st) = Conic.update J inp st.
Proof.
  unfold conic_evaluate. simpl negb.
  change (Conic.polarForm J inp phi false st)
    with (Conic.polarForm J inp phi true (Conic.update J inp st)).
  apply conic_suspended_state.
Qed.

(** What a suspended call returns: the stored rotation applied to the
    parametrization. *)
Lemma ellipse_suspended_result (inp : Ellipse.Inputs) (phi : num) (st : Ellipse.State) rot :
  Ellipse.rotationMatrix st = Some rot ->
  fst (Ellipse.polarForm inp phi true st) =
    Ok (matVecMult rot
          [< lit 1;
             Ellipse.majorAxis inp * lit 0.5 * Math_cos phi;
             Math_sqrt (Ellipse.majorAxis inp * lit 0.5 * (Ellipse.majorAxis inp * lit 0.5)
                        - Dist (Ellipse.F1 inp) (Ellipse.F0 inp) * lit 0.5
                          * (Dist (Ellipse.F1 inp) (Ellipse.F0 inp) * lit 0.5))
             * Math_sin phi >]).
Proof. intros Hrot. unfold Ellipse.polarForm; simpl. now rewrite Hrot. Qed.

Lemma hyperbola_suspended_result (inp : Hyperbola.Inputs) (phi : num) (st : Hyperbola.State) rot :
  Hyperbola.rotationMatrix st = Some rot ->
  fst (Hyperbola.polarForm inp phi true st) =
    Ok (matVecMult rot
          [< lit 1;
             Hyperbola.majorAxis inp * lit 0.5 / Math_cos phi;
             Math_sqrt (- (Hyperbola.majorAxis inp * lit 0.5) * (Hyperbola.majorAxis inp * lit 0.5)
                        + Dist (Hyperbola.F1 inp) (Hyperbola.F0 inp) * lit 0.5
                          * (Dist (Hyperbola.F1 inp) (Hyperbola.F0 inp) * lit 0.5))
             * Math_tan phi >]).
Proof. intros Hrot. unfold Hyperbola.polarForm; simpl. now rewrite Hrot. Qed.

Lemma parabola_suspended_result mll (inp : Parabola.Inputs) (t : num) (st : Parabola.State) rot :
  Parabola.rotationMatrix st = Some rot ->
  let M := Parabola.usr (Parabola.M mll inp) in
  let F1 := Parabola.usr (Parabola.F1 inp) in
  let e4 := Dist M F1 * lit 0.5 * lit 4 in
  let a := (X M + X F1) * lit 0.5 in
  let b := (Y M + Y F1) * lit 0.5 in
  fst (Parabola.polarForm mll inp t true st) =
    Ok (matVecMult rot [< e4; e4 * (t + a); t * t + b * e4 >]).
Proof. intros Hrot. unfold Parabola.polarForm; simpl. now rewrite Hrot. Qed.

(** C3.  For each of the four families: after a call with [recompute = true],
    a call with [recompute = false] returns the state unchanged; in
    particular [curve.quadraticform], the cached [rotationMatrix] and, for
    the general conic, the cached eigen data and the scalars a, b, c are what
    they were.  The suspended call only applies the stored rotation to the
    parametrization: for the general conic its outcome does not depend on the
    parents or the eigensolver at all. *)
Theorem suspended_call_keeps_cache :
  (forall (inp0 inp : Ellipse.Inputs) (phi0 phi : num) (st0 : Ellipse.State),
     let st1 := snd (ellipse_evaluate inp0 phi0 true st0) in
     let r := ellipse_evaluate inp phi false st1 in
     snd r = st1 /\
     Ellipse.quadraticform (snd r) = Ellipse.quadraticform st1 /\
     Ellipse.rotationMatrix (snd r) = Ellipse.rotationMatrix st1 /\
     Ellipse.rotationMatrix st1 = Some (Ellipse.transformFunc inp0) /\
     fst r = Ok (matVecMult (Ellipse.transformFunc inp0)
                   [< lit 1;
                      Ellipse.majorAxis inp * lit 0.5 * Math_cos phi;
                      Math_sqrt (Ellipse.majorAxis inp * lit 0.5 * (Ellipse.majorAxis inp * lit 0.5)
                                 - Dist (Ellipse.F1 inp) (Ellipse.F0 inp) * lit 0.5
                                   * (Dist (Ellipse.F1 inp) (Ellipse.F0 inp) * lit 0.5))
                      * Math_sin phi >])) /\
  (forall (inp0 inp : Hyperbola.Inputs) (phi0 phi : num) (st0 : Hyperbola.State),
     let st1 := snd (hyperbola_evaluate inp0 phi0 true st0) in
     let r := hyperbola_evaluate inp phi false st1 in
     snd r = st1 /\
     Hyperbola.quadraticform (snd r) = Hyperbola.quadraticform st1 /\
     Hyperbola.rotationMatrix (snd r) = Hyperbola.rotationMatrix st1 /\
     Hyperbola.rotationMatrix st1 = Some (Hyperbola.transformFunc inp0) /\
     fst r = Ok (matVecMult (Hyperbola.transformFunc inp0)
                   [< lit 1;
                      Hyperbola.majorAxis inp * lit 0.5 / Math_cos phi;
                      Math_sqrt (- (Hyperbola.majorAxis inp * lit 0.5) * (Hyperbola.majorAxis inp * lit 0.5)
                                 + Dist (Hyperbola.F1 inp) (Hyperbola.F0 inp) * lit 0.5
                                   * (Dist (Hyperbola.F1 inp) (Hyperbola.F0 inp) * lit 0.5))
                      * Math_tan phi >])) /\
  (forall mll (inp0 inp : Parabola.Inputs) (t0 t : num) (st0 : Parabola.State),
     let st1 := snd (parabola_evaluate mll inp0 t0 true st0) in
     let r := parabola_evaluate mll inp t false st1 in
     let M := Parabola.usr (Parabola.M mll inp) in
     let F1 := Parabola.usr (Parabola.F1 inp) in
     let e4 := Dist M F1 * lit 0.5 * lit 4 in
     let a := (X M + X F1) * lit 0.5 in
     let b := (Y M + Y F1) * lit 0.5 in
     snd r = st1 /\
     Parabola.quadraticform (snd r) = Parabola.quadraticform st1 /\
     Parabola.rotationMatrix (snd r) = Parabola.rotationMatrix st1 /\
     Parabola.rotationMatrix st1 = Some (Parabola.transformFunc mll inp0) /\
     fst r = Ok (matVecMult (Parabola.transformFunc mll inp0)
                   [< e4; e4 * (t + a); t * t + b * e4 >])) /\
  (forall J (inp0 inp : Conic.Inputs) (phi0 phi : num) (st0 : Conic.State),
     let st1 := snd (conic_evaluate J inp0 phi0 true st0) in
     let r := conic_evaluate J inp phi false st1 in
     snd r = st1 /\
     Conic.quadraticform (snd r) = Conic.quadraticform st1 /\
     Conic.rotationMatrix (snd r) = Conic.rotationMatrix st1 /\
     Conic.frame (snd r) = Conic.frame st1 /\
     Conic.M (snd r) = Conic.M st1 /\
     (forall J' inp', conic_evaluate J' inp' phi false st1 = r)).
Proof.
  split; [ | split; [ | split ] ].
  - intros inp0 inp phi0 phi st0 st1 r. subst r. unfold ellipse_evaluate at 1 2 3 4.
    simpl negb. rewrite ellipse_suspended_state.
    repeat split.
  - intros inp0 inp phi0 phi st0 st1 r. subst r. unfold hyperbola_evaluate at 1 2 3 4.
    simpl negb. rewrite hyperbola_suspended_state.
    repeat split.
  - intros mll inp0 inp t0 t st0 st1 r M F1 e4 a b. subst r.
    unfold parabola_evaluate at 1 2 3 4.
    simpl negb. rewrite parabola_suspended_state.
    repeat split.
  - intros J inp0 inp phi0 phi st0 st1 r. subst r. unfold conic_evaluate at 1 2 3 4 5.
    simpl negb. rewrite conic_suspended_state.
    split; [ reflexivity | ]. split; [ reflexivity | ]. split; [ reflexivity | ].
    split; [ reflexivity | ]. split; [ reflexivity | ].
    intros J' inp'. reflexivity.
Qed.

(** C4.  For each family and every [phi]: after [evaluate(phi, true)], two
    calls [evaluate(phi, false)] in a row on the same live inputs return the
    same outcome as each other and as the call [evaluate(phi, true)]. *)
Theorem suspended_calls_repeat_output :
  (forall (inp : Ellipse.Inputs) (phi : num) (st0 : Ellipse.State),
     let r1 := ellipse_evaluate inp phi true st0 in
     let r2 := ellipse_evaluate inp phi false (snd r1) in
     let r3 := ellipse_evaluate inp phi false (snd r2) in
     fst r2 = fst r1 /\ fst r3 = fst r1 /\ fst r3 = fst r2) /\
  (forall (inp : Hyperbola.Inputs) (phi : num) (st0 : Hyperbola.State),
     let r1 := hyperbola_evaluate inp phi true st0 in
     let r2 := hyperbola_evaluate inp phi false (snd r1) in
     let r3 := hyperbola_evaluate inp phi false (snd r2) in
     fst r2 = fst r1 /\ fst r3 = fst r1 /\ fst r3 = fst r2) /\
  (forall mll (inp : Parabola.Inputs) (t : num) (st0 : Parabola.State),
     let r1 := parabola_evaluate mll inp t true st0 in
     let r2 := parabola_evaluate mll inp t false (snd r1) in
     let r3 := parabola_evaluate mll inp t false (snd r2) in
     fst r2 = fst r1 /\ fst r3 = fst r1 /\ fst r3 = fst r2) /\
  (forall J (inp : Conic.Inputs) (phi : num) (st0 : Conic.State),
     let r1 := conic_evaluate J inp phi true st0 in
     let r2 := conic_evaluate J inp phi false (snd r1) in
     let r3 := conic_evaluate J inp phi false (snd r2) in
     fst r2 = fst r1 /\ fst r3 = fst r1 /\ fst r3 = fst r2).
Proof.
  split; [ | split; [ | split ] ].
  - intros inp phi st0 r1 r2 r3. repeat split.
  - intros inp phi st0 r1 r2 r3. repeat split.
  - intros mll inp t st0 r1 r2 r3. repeat split.
  - intros J inp phi st0 r1 r2 r3.
    assert (E1 : r1 = Conic.polarForm J inp phi true (Conic.update J inp st0)) by reflexivity.
    assert (S1 : snd r1 = Conic.update J inp st0)
      by (rewrite E1; apply conic_suspended_state).
    assert (E2 : r2 = r1).
    { subst r2. unfold conic_evaluate at 1. simpl negb. now rewrite S1. }
    assert (E3 : r3 = r1).
    { subst r3. unfold conic_evaluate at 1. simpl negb. now rewrite E2, S1. }
    rewrite E3, E2. repeat split.
Qed.

End CacheContract.

(** ** The quadratic form of the five-point conic (exact arithmetic) *)

(** Two matrices are equal when their nine entries are. *)
Lemma mat_ext {A} (P Q : mat A) :
  (forall i j, mget P i j = mget Q i j) -> P = Q.
Proof.
  intros E.
  destruct P as [[p00 p01 p02] [p10 p11 p12] [p20 p21 p22]].
  destruct Q as [[q00 q01 q02] [q10 q11 q12] [q20 q21 q22]].
  pose proof (E I0 I0); pose proof (E I0 I1); pose proof (E I0 I2).
  pose proof (E I1 I0); pose proof (E I1 I1); pose proof (E I1 I2).
  pose proof (E I2 I0); pose proof (E I2 I1); pose proof (E I2 I2).
  cbv in *. congruence.
Qed.

(** The in-place loops of [sym] compute [A + A^t]. *)
Lemma sym_is_sym_spec (A : mat R) : Conic.sym A = sym_spec A.
Proof.
  destruct A as [[a00 a01 a02] [a10 a11 a12] [a20 a21 a22]].
  apply mat_ext; intros [] []; run_R; ring.
Qed.

Lemma sym_symmetric (A : mat R) : symmetric (Conic.sym A).
Proof.
  destruct A as [[a00 a01 a02] [a10 a11 a12] [a20 a21 a22]].
  intros [] []; run_R; ring.
Qed.

Lemma degconic_is_sym_outer (v w : vec R) : Conic.degconic v w = sym_spec (outer v w).
Proof.
  destruct v as [v0 v1 v2], w as [w0 w1 w2].
  apply mat_ext; intros [] []; run_R; ring.
Qed.

Lemma fitConic_is_pencil (A B : mat R) (p : vec R) :
  Conic.fitConic A B p = mat_map2 sub (scal (quad B p) A) (scal (quad A p) B).
Proof.
  destruct A as [[a00 a01 a02] [a10 a11 a12] [a20 a21 a22]].
  destruct B as [[b00 b01 b02] [b10 b11 b12] [b20 b21 b22]].
  destruct p as [p0 p1 p2].
  apply mat_ext; intros [] []; run_R; ring.
Qed.

(** The quadratic form of a non-suspended call on five points. *)
Lemma five_points_quadraticform J (p0 p1 p2 p3 p4 : vec R) (phi : R) (st : Conic.State) :
  Conic.quadraticform (snd (conic_evaluate J (Conic.FivePoints p0 p1 p2 p3 p4) phi true st))
  = Some (Conic.fitConic (Conic.degconic (crossProduct p0 p1) (crossProduct p2 p3))
                         (Conic.degconic (crossProduct p0 p2) (crossProduct p1 p3)) p4).
Proof. rewrite conic_recompute_state. reflexivity. Qed.

(** The pencil vanishes on its five generating points. *)
Lemma pencil_annihilates (p0 p1 p2 p3 p4 : vec R) :
  quad (pencil p0 p1 p2 p3 p4) p0 = 0 /\
  quad (pencil p0 p1 p2 p3 p4) p1 = 0 /\
  quad (pencil p0 p1 p2 p3 p4) p2 = 0 /\
  quad (pencil p0 p1 p2 p3 p4) p3 = 0 /\
  quad (pencil p0 p1 p2 p3 p4) p4 = 0.
Proof.
  destruct p0 as [x0 y0 z0], p1 as [x1 y1 z1], p2 as [x2 y2 z2],
           p3 as [x3 y3 z3], p4 as [x4 y4 z4].
  repeat split; run_R; ring.
Qed.

(** C2.  For every five points [p0 .. p4], the quadratic form stored by a
    non-suspended call is the pencil
    [(p4^t c2 p4) . c1 - (p4^t c1 p4) . c2], where [c1 = sym(l01 (x) l23)],
    [c2 = sym(l02 (x) l13)] and [lij = pi x pj]; in exact arithmetic it
    vanishes on each of the five points: [pi^t M pi = 0]. *)
Theorem five_point_form_is_pencil :
  forall J (p0 p1 p2 p3 p4 : vec R) (phi : R) (st : Conic.State),
    let st' := snd (conic_evaluate J (Conic.FivePoints p0 p1 p2 p3 p4) phi true st) in
    Conic.quadraticform st' = Some (pencil p0 p1 p2 p3 p4) /\
    Conic.M st' = pencil p0 p1 p2 p3 p4 /\
    quad (Conic.M st') p0 = 0 /\
    quad (Conic.M st') p1 = 0 /\
    quad (Conic.M st') p2 = 0 /\
    quad (Conic.M st') p3 = 0 /\
    quad (Conic.M st') p4 = 0.
Proof.
  intros J p0 p1 p2 p3 p4 phi st st'.
  assert (EM : Conic.M st' = pencil p0 p1 p2 p3 p4).
  { subst st'. rewrite conic_recompute_state.
    change (Conic.M (Conic.update J (Conic.FivePoints p0 p1 p2 p3 p4) st))
      with (Conic.fitConic (Conic.degconic (crossProduct p0 p1) (crossProduct p2 p3))
              (Conic.degconic (crossProduct p0 p2) (crossProduct p1 p3)) p4).
    rewrite fitConic_is_pencil, !degconic_is_sym_outer. reflexivity. }
  split.
  - subst st'. rewrite five_points_quadraticform.
    rewrite fitConic_is_pencil, !degconic_is_sym_outer. reflexivity.
  - split; [ exact EM | ]. rewrite EM. apply pencil_annihilates.
Qed.

(** The documentation example: the conic through (1,5), (1,2), (2,0), (0,0)
    and (-1,5). *)
Example five_points_example_form (J : mat R -> mat R * mat R) :
  Conic.M (snd (conic_evaluate J five_points_example 0 true Conic.init))
  = [< [< 0; 2400; -360 >]; [< 2400; -2400; -480 >]; [< -360; -480; 240 >] >].
Proof.
  rewrite conic_recompute_state.
  apply mat_ext; intros [] []; run_R; lra.
Qed.

(** ** Symmetry of the quadratic form (exact arithmetic) *)

(** A congruence [T^t Q T] is symmetric when [Q] is. *)
Lemma congruence_symmetric (Q T : mat R) :
  symmetric Q -> symmetric (matMatMult (transpose T) (matMatMult Q T)).
Proof.
  destruct Q as [[q00 q01 q02] [q10 q11 q12] [q20 q21 q22]].
  destruct T as [[t00 t01 t02] [t10 t11 t12] [t20 t21 t22]].
  intros S.
  pose proof (S I0 I1) as S01; pose proof (S I0 I2) as S02; pose proof (S I1 I2) as S12.
  cbv in S01, S02, S12. subst q01 q02 q12.
  intros [] []; run_R; ring.
Qed.

Lemma fitConic_symmetric (A B : mat R) (p : vec R) :
  symmetric A -> symmetric B -> symmetric (Conic.fitConic A B p).
Proof.
  destruct A as [[a00 a01 a02] [a10 a11 a12] [a20 a21 a22]].
  destruct B as [[b00 b01 b02] [b10 b11 b12] [b20 b21 b22]].
  destruct p as [p0 p1 p2].
  intros SA SB.
  pose proof (SA I0 I1) as A01; pose proof (SA I0 I2) as A02; pose proof (SA I1 I2) as A12.
  pose proof (SB I0 I1) as B01; pose proof (SB I0 I2) as B02; pose proof (SB I1 I2) as B12.
  cbv in A01, A02, A12, B01, B02, B12. subst.
  intros [] []; run_R; ring.
Qed.

Lemma fill_symmetric (d : idx -> idx -> R) (M : mat R) : symmetric (Conic.fill d M).
Proof.
  destruct M as [[m00 m01 m02] [m10 m11 m12] [m20 m21 m22]].
  intros [] []; reflexivity.
Qed.

Lemma hyperbola_recompute_form (inp : Hyperbola.Inputs) (phi : R) (st : Hyperbola.State) :
  exists Q T,
    Hyperbola.quadraticform (snd (hyperbola_evaluate inp phi true st))
      = Some (matMatMult (transpose T) (matMatMult Q T)) /\ symmetric Q.
Proof.
  unfold hyperbola_evaluate, Hyperbola.polarForm. simpl negb. cbv iota.
  unfold Hyperbola.update. simpl.
  eexists; eexists; split; [ reflexivity | ].
  intros [] []; reflexivity.
Qed.

Lemma parabola_recompute_form mll (inp : Parabola.Inputs) (t : R) (st : Parabola.State) :
  exists Q T,
    Parabola.quadraticform (snd (parabola_evaluate mll inp t true st))
      = Some (matMatMult (transpose T) (matMatMult Q T)) /\ symmetric Q.
Proof.
  unfold parabola_evaluate, Parabola.polarForm. simpl negb. cbv iota.
  unfold Parabola.update. simpl.
  eexists; eexists; split; [ reflexivity | ].
  intros [] []; reflexivity.
Qed.

Lemma conic_recompute_symmetric J (inp : Conic.Inputs) (phi : R) (st : Conic.State) :
  exists Q,
    Conic.quadraticform (snd (conic_evaluate J inp phi true st)) = Some Q /\ symmetric Q.
Proof.
  rewrite conic_recompute_state.
  destruct inp as [p0 p1 p2 p3 p4 | q0 q1 q2 q3 q4 q5].
  - eexists; split; [ reflexivity | ].
    apply fitConic_symmetric; apply sym_symmetric.
  - eexists; split; [ reflexivity | ].
    apply fill_symmetric.
Qed.

(** The ellipse with foci (1,0), (3,0) and major axis 4. *)
Lemma ellipse_1_3_Dist : Dist (Ellipse.F1 ellipse_1_3) (Ellipse.F0 ellipse_1_3) = 2.
Proof.
  unfold Dist, ellipse_1_3; simpl. to_R.
  replace ((3 - 1) * (3 - 1) + (0 - 0) * (0 - 0)) with (2 * 2) by lra.
  apply sqrt_square; lra.
Qed.

Lemma ellipse_1_3_rotation :
  Ellipse.transformFunc ellipse_1_3 = [< [< 1; 0; 0 >]; [< 2; 1; 0 >]; [< 0; 0; 1 >] >].
Proof.
  unfold Ellipse.transformFunc, Ellipse.M, ellipse_1_3; simpl. to_R.
  rewrite (Rabs_pos_eq (3 - 1)) by lra.
  Rcompare.
  assert (B : Ratan2 (0 - 0) (3 - 1) + 0 * / 1 = 0).
  { unfold Ratan2. destruct (Rlt_dec 0 (3 - 1)) as [ _ | N ]; [ | exfalso; lra ].
    replace ((0 - 0) / (3 - 1)) with 0 by lra. rewrite atan_0. lra. }
  rewrite B, cos_0, sin_0.
  repeat f_equal; lra.
Qed.

Section Recompute.
Context {num : Type} `{Number num}.
Local Open Scope js_scope.

(** The state left by a non-suspended call of the ellipse. *)
Lemma ellipse_recompute_state (inp : Ellipse.Inputs) (phi : num) (st : Ellipse.State) :
  let a := Ellipse.majorAxis inp * lit 0.5 in
  let e := Dist (Ellipse.F1 inp) (Ellipse.F0 inp) * lit 0.5 in
  snd (ellipse_evaluate inp phi true st) = Ellipse.update inp a (a * a) (a * a - e * e).
Proof. reflexivity. Qed.

Lemma ellipse_recompute_result (inp : Ellipse.Inputs) (phi : num) (st : Ellipse.State) :
  let a := Ellipse.majorAxis inp * lit 0.5 in
  let e := Dist (Ellipse.F1 inp) (Ellipse.F0 inp) * lit 0.5 in
  let b := Math_sqrt (a * a - e * e) in
  fst (ellipse_evaluate inp phi true st)
  = Ok (matVecMult (Ellipse.transformFunc inp) [< lit 1; a * Math_cos phi; b * Math_sin phi >]).
Proof. reflexivity. Qed.

End Recompute.

(** C1.  After a non-suspended call the stored quadratic form of the
    hyperbola, of the parabola and of the general conic (five points or six
    coefficients) is symmetric.  The ellipse breaks the invariant: with foci
    (1,0), (3,0) and major axis 4 the stored form has entry [0][2] equal to
    -2/3 and entry [2][0] equal to 0. *)
Theorem quadraticform_symmetry_by_family :
  (forall (inp : Hyperbola.Inputs) (phi : R) (st : Hyperbola.State),
     exists Q, Hyperbola.quadraticform (snd (hyperbola_evaluate inp phi true st)) = Some Q
               /\ symmetric Q) /\
  (forall mll (inp : Parabola.Inputs) (t : R) (st : Parabola.State),
     exists Q, Parabola.quadraticform (snd (parabola_evaluate mll inp t true st)) = Some Q
               /\ symmetric Q) /\
  (forall J (inp : Conic.Inputs) (phi : R) (st : Conic.State),
     exists Q, Conic.quadraticform (snd (conic_evaluate J inp phi true st)) = Some Q
               /\ symmetric Q) /\
  (exists Q, Ellipse.quadraticform (snd (ellipse_evaluate ellipse_1_3 0 true Ellipse.init)) = Some Q
             /\ mget Q I0 I2 = - (2 / 3) /\ mget Q I2 I0 = 0 /\ ~ symmetric Q).
Proof.
  split; [ | split; [ | split ] ].
  - intros inp phi st.
    destruct (hyperbola_recompute_form inp phi st) as (Q & T & E & S).
    eexists; split; [ exact E | ]. now apply congruence_symmetric.
  - intros mll inp t st.
    destruct (parabola_recompute_form mll inp t st) as (Q & T & E & S).
    eexists; split; [ exact E | ]. now apply congruence_symmetric.
  - apply conic_recompute_symmetric.
  - rewrite ellipse_recompute_state. cbv zeta.
    unfold Ellipse.update. rewrite ellipse_1_3_rotation, ellipse_1_3_Dist.
    eexists; split; [ reflexivity | ].
    match goal with |- mget ?Q0 _ _ = _ /\ _ => set (Q := Q0) end.
    assert (E02 : mget Q I0 I2 = - (2 / 3)) by (subst Q; run_R; lra).
    assert (E20 : mget Q I2 I0 = 0) by (subst Q; run_R; lra).
    split; [ exact E02 | ]. split; [ exact E20 | ].
    intros S. specialize (S I0 I2). rewrite E02, E20 in S. lra.
Qed.

(** ** The eigenvalue normalisation of the general conic *)

Section Normalisation.
Context {num : Type} `{Number num}.
Local Open Scope js_scope.

(** The frame assigned by the update block, in terms of what the eigensolver
    returned on the fresh quadratic form. *)
Lemma conic_update_frame J (inp : Conic.Inputs) (st : Conic.State) :
  let st' := Conic.update J inp st in
  let E := Conic.scale (fst (J (Conic.M st'))) in
  Conic.frame st' =
    Some {| Conic.eigen := (E, snd (J (Conic.M st')));
            Conic.a := Math_sqrt (Math_abs (mget E I1 I1));
            Conic.b := Math_sqrt (Math_abs (mget E I2 I2));
            Conic.c := Math_sqrt (Math_abs (mget E I0 I0)) |}.
Proof. reflexivity. Qed.

(** The update block stores the eigenvectors as the eigensolver returned them. *)
Lemma conic_update_rotation J (inp : Conic.Inputs) (st : Conic.State) :
  let st' := Conic.update J inp st in
  Conic.rotationMatrix st' = snd (J (Conic.M st')).
Proof. reflexivity. Qed.

End Normalisation.

(** [scale] on the reals: the three diagonal entries are negated together
    when the first one is negative, and nothing is written otherwise. *)
Lemma scale_negative (A : mat R) :
  mget A I0 I0 < 0 ->
  mget (Conic.scale A) I0 I0 = - mget A I0 I0 /\
  mget (Conic.scale A) I1 I1 = - mget A I1 I1 /\
  mget (Conic.scale A) I2 I2 = - mget A I2 I2.
Proof.
  intros N. unfold Conic.scale.
  replace (mget A I0 I0 <? lit 0)%js with true
    by (symmetry; apply Rltb_true; to_R; lra).
  destruct A as [[a00 a01 a02] [a10 a11 a12] [a20 a21 a22]].
  repeat split; run_R; lra.
Qed.

Lemma scale_nonnegative (A : mat R) :
  ~ mget A I0 I0 < 0 -> Conic.scale A = A.
Proof.
  intros N. unfold Conic.scale.
  replace (mget A I0 I0 <? lit 0)%js with false; [ reflexivity | ].
  symmetry; apply Rltb_false; to_R; lra.
Qed.

Lemma scale_first_nonnegative (A : mat R) : 0 <= mget (Conic.scale A) I0 I0.
Proof.
  destruct (Rlt_dec (mget A I0 I0) 0) as [ N | N ].
  - destruct (scale_negative A N) as (E & _). rewrite E. lra.
  - rewrite (scale_nonnegative A N). lra.
Qed.

(** C5.  After every non-suspended call of the general conic the first
    eigenvalue [eigen[0][0][0]], from which [c] is computed, is >= 0: the
    three eigenvalues are negated together when the eigensolver returned a
    negative first eigenvalue, and are left as returned otherwise. *)
Theorem primary_eigenvalue_nonnegative :
  forall J (inp : Conic.Inputs) (phi : R) (st : Conic.State),
    let st' := snd (conic_evaluate J inp phi true st) in
    let A := fst (J (Conic.M st')) in
    exists fr,
      Conic.frame st' = Some fr /\
      0 <= mget (fst (Conic.eigen fr)) I0 I0 /\
      Conic.c fr = sqrt (Rabs (mget (fst (Conic.eigen fr)) I0 I0)) /\
      (mget A I0 I0 < 0 ->
         mget (fst (Conic.eigen fr)) I0 I0 = - mget A I0 I0 /\
         mget (fst (Conic.eigen fr)) I1 I1 = - mget A I1 I1 /\
         mget (fst (Conic.eigen fr)) I2 I2 = - mget A I2 I2) /\
      (~ mget A I0 I0 < 0 -> fst (Conic.eigen fr) = A).
Proof.
  intros J inp phi st st' A. subst A st'.
  rewrite conic_recompute_state.
  eexists. split; [ apply conic_update_frame | ].
  cbv zeta. cbn [Conic.eigen Conic.c fst].
  split; [ apply scale_first_nonnegative | ].
  split; [ reflexivity | ].
  split; [ apply scale_negative | apply scale_nonnegative ].
Qed.

(** The quadratic form of the unit circle, given by six coefficients. *)
Lemma unit_circle_form (st : Conic.State) :
  Conic.M (Conic.update Jacobi_diagonal unit_circle st)
  = [< [< -1; 0; 0 >]; [< 0; 1; 0 >]; [< 0; 0; 1 >] >].
Proof.
  destruct st as [rot [[m00 m01 m02] [m10 m11 m12] [m20 m21 m22]] q f cc p].
  reflexivity.
Qed.

Lemma primary_eigenvalue_nonnegative_witness :
  mget (fst (Jacobi_diagonal
          (Conic.M (snd (conic_evaluate Jacobi_diagonal unit_circle 0 true Conic.init)))))
       I0 I0 = -1 /\
  exists fr,
    Conic.frame (snd (conic_evaluate Jacobi_diagonal unit_circle 0 true Conic.init)) = Some fr /\
    mget (fst (Conic.eigen fr)) I0 I0 = 1 /\
    0 <= mget (fst (Conic.eigen fr)) I0 I0.
Proof.
  assert (E : mget (fst (Jacobi_diagonal
                (Conic.M (snd (conic_evaluate Jacobi_diagonal unit_circle 0 true Conic.init)))))
              I0 I0 = -1).
  { rewrite conic_recompute_state, unit_circle_form. reflexivity. }
  split; [ exact E | ].
  destruct (primary_eigenvalue_nonnegative Jacobi_diagonal unit_circle 0 Conic.init)
    as (fr & F & P & _ & Neg & _).
  exists fr. split; [ exact F | ]. split; [ | exact P ].
  rewrite E in Neg. destruct Neg as (E0 & _); lra.
Defined.

(** C9 (as the code has it).  When the eigensolver returns a negative first
    eigenvalue, the update negates the three eigenvalues, which makes the
    first one positive, and stores the eigenvectors exactly as the
    eigensolver returned them: [rotationMatrix] is [eigen[1]], no row or
    column of it is negated. *)
Theorem normalisation_keeps_eigenvectors :
  forall J (inp : Conic.Inputs) (phi : R) (st : Conic.State),
    let st' := snd (conic_evaluate J inp phi true st) in
    let A := fst (J (Conic.M st')) in
    let V := snd (J (Conic.M st')) in
    mget A I0 I0 < 0 ->
    exists fr,
      Conic.frame st' = Some fr /\
      Conic.rotationMatrix st' = V /\
      snd (Conic.eigen fr) = V /\
      0 < mget (fst (Conic.eigen fr)) I0 I0 /\
      mget (fst (Conic.eigen fr)) I0 I0 = - mget A I0 I0 /\
      mget (fst (Conic.eigen fr)) I1 I1 = - mget A I1 I1 /\
      mget (fst (Conic.eigen fr)) I2 I2 = - mget A I2 I2.
Proof.
  intros J inp phi st st' A V N. subst A V st'.
  rewrite conic_recompute_state in *.
  eexists. split; [ apply conic_update_frame | ].
  cbv zeta. cbn [Conic.eigen fst snd].
  split; [ apply conic_update_rotation | ].
  split; [ reflexivity | ].
  destruct (scale_negative _ N) as (E0 & E1 & E2).
  rewrite E0, E1, E2. repeat split; lra.
Qed.

Lemma normalisation_keeps_eigenvectors_witness :
  mget (fst (Jacobi_diagonal
          (Conic.M (snd (conic_evaluate Jacobi_diagonal unit_circle 0 true Conic.init)))))
       I0 I0 < 0 /\
  exists fr,
    Conic.frame (snd (conic_evaluate Jacobi_diagonal unit_circle 0 true Conic.init)) = Some fr /\
    Conic.rotationMatrix (snd (conic_evaluate Jacobi_diagonal unit_circle 0 true Conic.init))
      = identity /\
    0 < mget (fst (Conic.eigen fr)) I0 I0.
Proof.
  assert (N : mget (fst (Jacobi_diagonal
                (Conic.M (snd (conic_evaluate Jacobi_diagonal unit_circle 0 true Conic.init)))))
              I0 I0 < 0).
  { rewrite conic_recompute_state, unit_circle_form. cbv [Jacobi_diagonal fst mget vget e0]. lra. }
  split; [ exact N | ].
  destruct (normalisation_keeps_eigenvectors Jacobi_diagonal unit_circle 0 Conic.init N)
    as (fr & F & Rot & _ & P & _).
  exists fr. split; [ exact F | ]. split; [ exact Rot | exact P ].
Defined.

(** C9, as the claim states it, fails: on the unit circle the eigensolver
    returns the first eigenvalue -1 with the unit vectors as eigenvectors;
    after the update [rotationMatrix] is still the identity: its first row
    is (1, 0, 0), not the negated (-1, 0, 0), and so is its first column. *)
Lemma eigenvector_row_not_flipped :
  let st' := snd (conic_evaluate Jacobi_diagonal unit_circle 0 true Conic.init) in
  let A := fst (Jacobi_diagonal (Conic.M st')) in
  let V := snd (Jacobi_diagonal (Conic.M st')) in
  mget A I0 I0 < 0 /\
  Conic.rotationMatrix st' = V /\
  e0 (Conic.rotationMatrix st') = [< 1; 0; 0 >] /\
  e0 (Conic.rotationMatrix st') <> [< - e0 (e0 V); - e1 (e0 V); - e2 (e0 V) >] /\
  mget (Conic.rotationMatrix st') I0 I0 <> - mget V I0 I0.
Proof.
  cbv zeta. rewrite conic_recompute_state, unit_circle_form.
  split; [ cbv [Jacobi_diagonal fst mget vget e0]; lra | ].
  split; [ reflexivity | ].
  assert (E : e0 (Conic.rotationMatrix (Conic.update Jacobi_diagonal unit_circle Conic.init))
              = [< 1; 0; 0 >]).
  { cbv [Conic.update Conic.rotationMatrix Jacobi_diagonal snd identity e0].
    to_R. f_equal; lra. }
  split; [ exact E | ].
  split.
  - rewrite E. cbv [Jacobi_diagonal snd identity e0 e1 e2]. to_R.
    intros C. injection C as C0 _ _. lra.
  - unfold mget, vget. rewrite E.
    cbv [Jacobi_diagonal snd identity e0]. to_R. lra.
Qed.

(** ** The branch selector of the general conic *)

(** The guards of the chain, on the reals. *)
Lemma select_cases (l1 l2 : R) :
  (l1 <= 0 /\ l2 <= 0 /\ Conic.select l1 l2 = Some Conic.Branch1) \/
  (l1 <= 0 /\ 0 < l2 /\ Conic.select l1 l2 = Some Conic.Branch2) \/
  (0 < l1 /\ l2 < 0 /\ Conic.select l1 l2 = Some Conic.Branch3) \/
  (0 < l1 /\ 0 <= l2 /\ Conic.select l1 l2 = None).
Proof.
  unfold Conic.select. to_R.
  destruct (Rle_dec l1 0) as [ L1 | L1 ]; destruct (Rle_dec l2 0) as [ L2 | L2 ].
  - left. repeat split; try lra. Rcompare. reflexivity.
  - right; left. repeat split; try lra. Rcompare. reflexivity.
  - destruct (Rlt_dec l2 0) as [ N2 | N2 ].
    + right; right; left. repeat split; try lra. Rcompare. reflexivity.
    + right; right; right. repeat split; try lra. Rcompare. reflexivity.
  - right; right; right. repeat split; try lra. Rcompare. reflexivity.
Qed.

(** The call throws exactly on the path that leaves [v] undefined. *)
Lemma conic_throws_iff_no_branch J (inp : Conic.Inputs) (phi : R) (st : Conic.State) fr :
  Conic.frame st = Some fr ->
  (fst (Conic.polarForm J inp phi true st) = TypeError <->
   Conic.select (mget (fst (Conic.eigen fr)) I1 I1) (mget (fst (Conic.eigen fr)) I2 I2) = None).
Proof.
  intros F. unfold Conic.polarForm. simpl negb. cbv iota. rewrite F.
  destruct (Conic.select _ _) as [ br | ]; [ destruct br | ]; simpl; split; congruence.
Qed.

(** C6 (as the code has it).  The three branches exclude one another, and
    for every eigenvalue triple with [l0 >= 0] and ([l1 <= 0] or [l2 < 0])
    exactly one of them assigns [v].  The path that leaves [v] undefined,
    on which the call throws, is taken exactly when [l1 > 0] and [l2 >= 0]:
    this is the case [l2 = 0], and also every triple with [l1 > 0] and
    [l2 > 0], where no eigenvalue need be zero. *)
Theorem branch_selector_cover :
  forall l0 l1 l2 : R,
    0 <= l0 ->
    (Conic.select l1 l2 = Some Conic.Branch1 <-> l1 <= 0 /\ l2 <= 0) /\
    (Conic.select l1 l2 = Some Conic.Branch2 <-> l1 <= 0 /\ 0 < l2) /\
    (Conic.select l1 l2 = Some Conic.Branch3 <-> 0 < l1 /\ l2 < 0) /\
    (Conic.select l1 l2 = None <-> 0 < l1 /\ 0 <= l2) /\
    (l1 <= 0 \/ l2 < 0 ->
       exists br, Conic.select l1 l2 = Some br /\
                  forall br', Conic.select l1 l2 = Some br' -> br' = br) /\
    (forall J inp phi st fr,
       Conic.frame st = Some fr ->
       mget (fst (Conic.eigen fr)) I1 I1 = l1 ->
       mget (fst (Conic.eigen fr)) I2 I2 = l2 ->
       (fst (Conic.polarForm J inp phi true st) = TypeError <-> 0 < l1 /\ 0 <= l2)).
Proof.
  intros l0 l1 l2 _.
  assert (C := select_cases l1 l2).
  assert (NoneIff : Conic.select l1 l2 = None <-> 0 < l1 /\ 0 <= l2).
  { destruct C as [ (A & B & E) | [ (A & B & E) | [ (A & B & E) | (A & B & E) ] ] ];
      rewrite E; split; intros; try discriminate; try lra; auto. }
  split; [ | split; [ | split; [ | split; [ | split ] ] ] ].
  - destruct C as [ (A & B & E) | [ (A & B & E) | [ (A & B & E) | (A & B & E) ] ] ];
      rewrite E; split; intros; try discriminate; try lra; auto.
  - destruct C as [ (A & B & E) | [ (A & B & E) | [ (A & B & E) | (A & B & E) ] ] ];
      rewrite E; split; intros; try discriminate; try lra; auto.
  - destruct C as [ (A & B & E) | [ (A & B & E) | [ (A & B & E) | (A & B & E) ] ] ];
      rewrite E; split; intros; try discriminate; try lra; auto.
  - exact NoneIff.
  - intros P.
    destruct C as [ (A & B & E) | [ (A & B & E) | [ (A & B & E) | (A & B & E) ] ] ];
      try (exfalso; lra);
      rewrite E; eexists; (split; [ reflexivity | intros br' E'; congruence ]).
  - intros J inp phi st fr F E1 E2.
    rewrite (conic_throws_iff_no_branch J inp phi st F), E1, E2. exact NoneIff.
Qed.

Lemma branch_selector_cover_witness :
  0 <= 1 /\ (-1 <= 0 \/ -1 < 0) /\
  exists br, Conic.select (-1) (-1) = Some br /\
             forall br', Conic.select (-1) (-1) = Some br' -> br' = br.
Proof.
  assert (H0 : 0 <= 1) by lra.
  assert (H1 : -1 <= 0 \/ -1 < 0) by (left; lra).
  split; [ exact H0 | ]. split; [ exact H1 | ].
  exact (proj1 (proj2 (proj2 (proj2 (proj2 (branch_selector_cover (-1) (-1) H0))))) H1).
Defined.

(** The state after the first update on the definite form diag(1, 1, 1). *)
Lemma definite_form_frame :
  exists fr,
    Conic.frame (Conic.update Jacobi_diagonal definite_form Conic.init) = Some fr /\
    mget (fst (Conic.eigen fr)) I0 I0 = 1 /\
    mget (fst (Conic.eigen fr)) I1 I1 = 1 /\
    mget (fst (Conic.eigen fr)) I2 I2 = 1.
Proof.
  eexists. split; [ apply conic_update_frame | ].
  cbv zeta. cbn [Conic.eigen fst].
  rewrite scale_nonnegative; [ repeat split | ]; cbv; lra.
Qed.

(** C6, as the claim states it, fails in its last clause: the definite form
    diag(1, 1, 1) has the eigenvalues (1, 1, 1), none of them zero, and the
    first one >= 0; no branch is selected and the call throws. *)
Lemma definite_form_falls_through :
  exists fr,
    Conic.frame (snd (conic_evaluate Jacobi_diagonal definite_form 0 true Conic.init)) = Some fr /\
    0 <= mget (fst (Conic.eigen fr)) I0 I0 /\
    mget (fst (Conic.eigen fr)) I0 I0 <> 0 /\
    mget (fst (Conic.eigen fr)) I1 I1 <> 0 /\
    mget (fst (Conic.eigen fr)) I2 I2 <> 0 /\
    Conic.select (mget (fst (Conic.eigen fr)) I1 I1) (mget (fst (Conic.eigen fr)) I2 I2) = None /\
    fst (conic_evaluate Jacobi_diagonal definite_form 0 true Conic.init) = TypeError.
Proof.
  destruct definite_form_frame as (fr & F & E0 & E1 & E2).
  exists fr. rewrite conic_recompute_state.
  split; [ exact F | ].
  rewrite E0, E1, E2.
  assert (S : Conic.select 1 1 = None).
  { destruct (select_cases 1 1) as [ (A & B & E) | [ (A & B & E) | [ (A & B & E) | (A & B & E) ] ] ];
      try (exfalso; lra). exact E. }
  repeat split; try lra; try exact S.
  change (conic_evaluate Jacobi_diagonal definite_form 0 true Conic.init)
    with (Conic.polarForm Jacobi_diagonal definite_form 0 true
            (Conic.update Jacobi_diagonal definite_form Conic.init)).
  apply (conic_throws_iff_no_branch Jacobi_diagonal definite_form 0 _ F).
  now rewrite E1, E2.
Qed.

(** ** The parametrisation of the ellipse (exact arithmetic) *)

(** [transformFunc] is the similarity of the specification. *)
Lemma ellipse_rotation_is_similarity (inp : Ellipse.Inputs) :
  Ellipse.transformFunc inp
  = similarity (midpoint_of (Ellipse.F0 inp) (Ellipse.F1 inp))
               (foci_angle (Ellipse.F0 inp) (Ellipse.F1 inp)).
Proof.
  destruct inp as [[x0 y0] [x1 y1] ax].
  unfold Ellipse.transformFunc, similarity, midpoint_of, foci_angle, Ellipse.M.
  cbn [Ellipse.F0 Ellipse.F1 X Y]. to_R.
  set (beta := if Rltb _ (Rabs _) then _ else _).
  set (beta' := if Rle_dec (Rabs _) _ then _ else _).
  assert (B : beta = beta').
  { subst beta beta'.
    destruct (Rle_dec (Rabs (x1 - x0)) (1 / 10000000)) as [ V | V ].
    - replace (Rltb (1 * / 10000000) (Rabs (x1 - x0))) with false
        by (symmetry; apply Rltb_false; lra).
      destruct (Rlt_dec 0 (y1 - y0)) as [ U | U ]; Rcompare; lra.
    - replace (Rltb (1 * / 10000000) (Rabs (x1 - x0))) with true
        by (symmetry; apply Rltb_true; lra).
      destruct (Rlt_dec 0 (x1 - x0)) as [ P | P ]; Rcompare; lra. }
  rewrite B. f_equal; f_equal; lra.
Qed.

Lemma Dist_nonnegative (P Q : point R) : 0 <= Dist P Q.
Proof. unfold Dist. to_R. apply sqrt_pos. Qed.

(** C7.  For every ellipse with [a >= e], where [a = majorAxis()/2] and
    [e = |f1 - f0|/2], a non-suspended call returns
    [rotationMatrix . (1, a cos phi, b sin phi)] with [b = sqrt(a^2 - e^2)]
    (so that [b^2 = a^2 - e^2]), and [rotationMatrix] is the similarity that
    translates to the midpoint of the foci and rotates by the angle of the
    segment from f0 to f1: [atan2] with the sign correction, the vertical
    branch when [abs dx <= 1e-7]. *)
Theorem ellipse_parametrisation :
  forall (inp : Ellipse.Inputs) (phi : R) (st : Ellipse.State),
    let a := Ellipse.majorAxis inp / 2 in
    let e := Dist (Ellipse.F1 inp) (Ellipse.F0 inp) / 2 in
    let b := sqrt (a * a - e * e) in
    let rot := similarity (midpoint_of (Ellipse.F0 inp) (Ellipse.F1 inp))
                          (foci_angle (Ellipse.F0 inp) (Ellipse.F1 inp)) in
    a >= e ->
    fst (ellipse_evaluate inp phi true st)
      = Ok (matVecMult rot [< 1; a * cos phi; b * sin phi >]) /\
    Ellipse.rotationMatrix (snd (ellipse_evaluate inp phi true st)) = Some rot /\
    b * b = a * a - e * e /\ 0 <= b.
Proof.
  intros inp phi st a e b rot Hae.
  assert (He : 0 <= e).
  { subst e. pose proof (Dist_nonnegative (Ellipse.F1 inp) (Ellipse.F0 inp)). lra. }
  assert (Hbb : 0 <= a * a - e * e) by nra.
  split; [ | split; [ | split ] ].
  - rewrite ellipse_recompute_result. cbv zeta.
    rewrite ellipse_rotation_is_similarity. fold rot.
    assert (Ea : (Ellipse.majorAxis inp * lit 0.5)%js = a) by (subst a; to_R; lra).
    assert (Ee : (Dist (Ellipse.F1 inp) (Ellipse.F0 inp) * lit 0.5)%js = e)
      by (subst e; to_R; lra).
    rewrite Ea, Ee.
    assert (E1 : (lit 1 : R) = 1) by (to_R; lra).
    rewrite E1. reflexivity.
  - rewrite ellipse_recompute_state. cbv zeta. unfold Ellipse.update.
    cbn [Ellipse.rotationMatrix]. now rewrite ellipse_rotation_is_similarity.
  - subst b. now apply sqrt_sqrt.
  - subst b. apply sqrt_pos.
Qed.

Lemma ellipse_vertical_Dist :
  Dist (Ellipse.F1 ellipse_vertical) (Ellipse.F0 ellipse_vertical) = 8.
Proof.
  unfold Dist, ellipse_vertical; simpl. to_R.
  replace ((-1 - -1) * (-1 - -1) + (-4 - 4) * (-4 - 4)) with (8 * 8) by lra.
  apply sqrt_square; lra.
Qed.

Lemma ellipse_parametrisation_witness :
  Ellipse.majorAxis ellipse_vertical / 2
    >= Dist (Ellipse.F1 ellipse_vertical) (Ellipse.F0 ellipse_vertical) / 2 /\
  fst (ellipse_evaluate ellipse_vertical 0 true Ellipse.init)
    = Ok (matVecMult
            (similarity (midpoint_of (Ellipse.F0 ellipse_vertical) (Ellipse.F1 ellipse_vertical))
                        (foci_angle (Ellipse.F0 ellipse_vertical) (Ellipse.F1 ellipse_vertical)))
            [< 1;
               Ellipse.majorAxis ellipse_vertical / 2 * cos 0;
               sqrt (Ellipse.majorAxis ellipse_vertical / 2 * (Ellipse.majorAxis ellipse_vertical / 2)
                     - Dist (Ellipse.F1 ellipse_vertical) (Ellipse.F0 ellipse_vertical) / 2
                       * (Dist (Ellipse.F1 ellipse_vertical) (Ellipse.F0 ellipse_vertical) / 2))
               * sin 0 >]).
Proof.
  assert (Hae : Ellipse.majorAxis ellipse_vertical / 2
                >= Dist (Ellipse.F1 ellipse_vertical) (Ellipse.F0 ellipse_vertical) / 2).
  { rewrite ellipse_vertical_Dist. unfold Ellipse.majorAxis, ellipse_vertical; simpl. lra. }
  split; [ exact Hae | ].
  exact (proj1 (ellipse_parametrisation ellipse_vertical 0 Ellipse.init Hae)).
Defined.


(** ** Which values a suspended call reads *)

Section SuspendedInputs.
Context {num : Type} `{Number num}.
Local Open Scope js_scope.

(** C8 (as the code has it).  A suspended call of the general conic reads
    only the cached [rotationMatrix], eigen data and a, b, c: two suspended
    calls on the same cached state and [phi] return the same outcome
    whatever the parents (and the eigensolver).  A suspended call of the
    ellipse, the hyperbola or the parabola applies the cached
    [rotationMatrix] to a parametrization whose axis lengths are computed
    from the current live inputs ([majorAxis()], the foci; the focus and the
    point [M] for the parabola). *)
Theorem suspended_call_inputs :
  (forall J J' (inp inp' : Conic.Inputs) (phi : num) (st : Conic.State),
     conic_evaluate J inp phi false st = conic_evaluate J' inp' phi false st) /\
  (forall (inp : Ellipse.Inputs) (phi : num) (st : Ellipse.State),
     let a := Ellipse.majorAxis inp * lit 0.5 in
     let e := Dist (Ellipse.F1 inp) (Ellipse.F0 inp) * lit 0.5 in
     let b := Math_sqrt (a * a - e * e) in
     ellipse_evaluate inp phi false st =
       (match Ellipse.rotationMatrix st with
        | Some rot => Ok (matVecMult rot [< lit 1; a * Math_cos phi; b * Math_sin phi >])
        | None => TypeError
        end, st)) /\
  (forall (inp : Hyperbola.Inputs) (phi : num) (st : Hyperbola.State),
     let a := Hyperbola.majorAxis inp * lit 0.5 in
     let e := Dist (Hyperbola.F1 inp) (Hyperbola.F0 inp) * lit 0.5 in
     let b := Math_sqrt (- a * a + e * e) in
     hyperbola_evaluate inp phi false st =
       (match Hyperbola.rotationMatrix st with
        | Some rot => Ok (matVecMult rot [< lit 1; a / Math_cos phi; b * Math_tan phi >])
        | None => TypeError
        end, st)) /\
  (forall mll (inp : Parabola.Inputs) (t : num) (st : Parabola.State),
     let M := Parabola.usr (Parabola.M mll inp) in
     let F1 := Parabola.usr (Parabola.F1 inp) in
     let e4 := Dist M F1 * lit 0.5 * lit 4 in
     let a := (X M + X F1) * lit 0.5 in
     let b := (Y M + Y F1) * lit 0.5 in
     parabola_evaluate mll inp t false st =
       (match Parabola.rotationMatrix st with
        | Some rot => Ok (matVecMult rot [< e4; e4 * (t + a); t * t + b * e4 >])
        | None => TypeError
        end, st)).
Proof.
  split; [ | split; [ | split ] ].
  - reflexivity.
  - intros inp phi st a e b. unfold ellipse_evaluate, Ellipse.polarForm. simpl negb.
    cbv iota. now destruct (Ellipse.rotationMatrix st).
  - intros inp phi st a e b. unfold hyperbola_evaluate, Hyperbola.polarForm. simpl negb.
    cbv iota. now destruct (Hyperbola.rotationMatrix st).
  - intros mll inp t st M F1 e4 a b. unfold parabola_evaluate, Parabola.polarForm. simpl negb.
    cbv iota. now destruct (Parabola.rotationMatrix st).
Qed.

End SuspendedInputs.

(** C8, as the claim states it, fails for the ellipse: on the cached state
    left by an update with foci (1,0), (3,0), two suspended calls at
    [phi = 0] whose inputs differ only in [majorAxis()] (4 and 6) return the
    points (4, 0) and (5, 0). *)
Lemma suspended_ellipse_reads_live_axis :
  let st1 := snd (ellipse_evaluate ellipse_1_3 0 true Ellipse.init) in
  Ellipse.F0 ellipse_1_3_wide = Ellipse.F0 ellipse_1_3 /\
  Ellipse.F1 ellipse_1_3_wide = Ellipse.F1 ellipse_1_3 /\
  fst (ellipse_evaluate ellipse_1_3 0 false st1) = Ok [< 1; 4; 0 >] /\
  fst (ellipse_evaluate ellipse_1_3_wide 0 false st1) = Ok [< 1; 5; 0 >] /\
  snd (ellipse_evaluate ellipse_1_3 0 false st1) = st1 /\
  snd (ellipse_evaluate ellipse_1_3_wide 0 false st1) = st1 /\
  fst (ellipse_evaluate ellipse_1_3 0 false st1)
    <> fst (ellipse_evaluate ellipse_1_3_wide 0 false st1).
Proof.
  cbv zeta.
  assert (Rot : Ellipse.rotationMatrix (snd (ellipse_evaluate ellipse_1_3 0 true Ellipse.init))
                = Some [< [< 1; 0; 0 >]; [< 2; 1; 0 >]; [< 0; 0; 1 >] >]).
  { rewrite ellipse_recompute_state. cbv zeta. unfold Ellipse.update.
    cbn [Ellipse.rotationMatrix]. now rewrite ellipse_1_3_rotation. }
  assert (A : fst (ellipse_evaluate ellipse_1_3 0 false
                     (snd (ellipse_evaluate ellipse_1_3 0 true Ellipse.init)))
              = Ok [< 1; 4; 0 >]).
  { unfold ellipse_evaluate at 1. simpl negb.
    rewrite (ellipse_suspended_result _ _ _ Rot).
    unfold matVecMult, innerProduct, Ellipse.majorAxis, ellipse_1_3.
    cbn [e0 e1 e2 Ellipse.axis]. to_R. rewrite cos_0, sin_0.
    f_equal. f_equal; lra. }
  assert (B : fst (ellipse_evaluate ellipse_1_3_wide 0 false
                     (snd (ellipse_evaluate ellipse_1_3 0 true Ellipse.init)))
              = Ok [< 1; 5; 0 >]).
  { unfold ellipse_evaluate at 1. simpl negb.
    rewrite (ellipse_suspended_result _ _ _ Rot).
    unfold matVecMult, innerProduct, Ellipse.majorAxis, ellipse_1_3_wide.
    cbn [e0 e1 e2 Ellipse.axis]. to_R. rewrite cos_0, sin_0.
    f_equal. f_equal; lra. }
  split; [ reflexivity | ]. split; [ reflexivity | ].
  split; [ exact A | ]. split; [ exact B | ].
  split; [ apply ellipse_suspended_state | ].
  split; [ apply ellipse_suspended_state | ].
  rewrite A, B. intros C. injection C as C. lra.
Qed.

(** ** The parabola returns an unnormalised homogeneous vector *)

Section ParabolaResult.
Context {num : Type} `{Number num}.
Local Open Scope js_scope.

Lemma parabola_recompute_result mll (inp : Parabola.Inputs) (t : num) (st : Parabola.State) :
  let M := Parabola.usr (Parabola.M mll inp) in
  let F1 := Parabola.usr (Parabola.F1 inp) in
  let e4 := Dist M F1 * lit 0.5 * lit 4 in
  let a := (X M + X F1) * lit 0.5 in
  let b := (Y M + Y F1) * lit 0.5 in
  parabola_evaluate mll inp t true st
  = (Ok (matVecMult (Parabola.transformFunc mll inp) [< e4; e4 * (t + a); t * t + b * e4 >]),
     Parabola.update mll inp (Dist M F1 * lit 0.5) e4 a b).
Proof. reflexivity. Qed.

(** The general conic divides by the first component and returns it as 1. *)
Lemma conic_result_normalised J (inp : Conic.Inputs) (phi : num) (s : bool) (st : Conic.State) v :
  fst (Conic.polarForm J inp phi s st) = Ok v -> e0 v = lit 1.0.
Proof.
  unfold Conic.polarForm.
  destruct (Conic.frame _) as [ fr | ]; [ | discriminate ].
  destruct (Conic.select _ _) as [ br | ]; [ destruct br | ]; simpl;
    intros E; try discriminate; injection E as <-; reflexivity.
Qed.

End ParabolaResult.

(** C10.  A non-suspended call of the parabola returns
    [rotationMatrix . (4e, 4e (t + a), t^2 + 4e b)] as it is: the first
    component of the returned vector is [4e], [curve.X] and [curve.Y] return
    its second and third components, which are [4e] times the affine
    coordinates (second and third component divided by the first) whenever
    [e] is not zero.  The general conic, in contrast, returns a vector
    divided by its first component, with first component 1. *)
Theorem parabola_result_unnormalised :
  forall mll (inp : Parabola.Inputs) (t : R) (st : Parabola.State),
    let M := Parabola.usr (Parabola.M mll inp) in
    let F1 := Parabola.usr (Parabola.F1 inp) in
    let e := Dist M F1 / 2 in
    let a := (X M + X F1) / 2 in
    let b := (Y M + Y F1) / 2 in
    exists v,
      fst (parabola_evaluate mll inp t true st) = Ok v /\
      v = matVecMult (Parabola.transformFunc mll inp)
            [< 4 * e; 4 * e * (t + a); t * t + 4 * e * b >] /\
      Parabola.rotationMatrix (snd (parabola_evaluate mll inp t true st))
        = Some (Parabola.transformFunc mll inp) /\
      e0 v = 4 * e /\
      fst (Parabola.curve_X mll inp t false st) = Ok (e1 v) /\
      fst (Parabola.curve_Y mll inp t false st) = Ok (e2 v) /\
      (e <> 0 -> e1 v = 4 * e * (e1 v / e0 v) /\ e2 v = 4 * e * (e2 v / e0 v)) /\
      (forall J cinp phi s cst w,
         fst (Conic.polarForm J cinp phi s cst) = Ok w -> e0 w = 1).
Proof.
  intros mll inp t st M F1 e a b.
  rewrite parabola_recompute_result. cbv zeta. fold M F1.
  assert (Ee : (Dist M F1 * lit 0.5 * lit 4)%js = 4 * e) by (subst e; to_R; lra).
  assert (Ea : ((X M + X F1) * lit 0.5)%js = a) by (subst a; to_R; lra).
  assert (Eb : ((Y M + Y F1) * lit 0.5)%js = b) by (subst b; to_R; lra).
  rewrite Ee, Ea, Eb.
  set (v := matVecMult _ _).
  assert (E0 : e0 v = 4 * e).
  { subst v. unfold matVecMult, innerProduct, Parabola.transformFunc.
    cbn [e0 e1 e2]. to_R. lra. }
  exists v. split; [ reflexivity | ].
  split; [ subst v; f_equal; f_equal; to_R; lra | ].
  split; [ reflexivity | ].
  split; [ exact E0 | ].
  split.
  { unfold Parabola.curve_X, component.
    change (Parabola.polarForm mll inp t false st) with (parabola_evaluate mll inp t true st).
    rewrite parabola_recompute_result. cbv zeta. fold M F1. rewrite Ee, Ea, Eb. reflexivity. }
  split.
  { unfold Parabola.curve_Y, component.
    change (Parabola.polarForm mll inp t false st) with (parabola_evaluate mll inp t true st).
    rewrite parabola_recompute_result. cbv zeta. fold M F1. rewrite Ee, Ea, Eb. reflexivity. }
  split.
  { intros Ne. rewrite E0. split; field; lra. }
  intros J cinp phi s cst w Hw.
  rewrite (conic_result_normalised J cinp phi s cst Hw). to_R. lra.
Qed.

(** The parabola with focus (0,2) and directrix y = 0: the point [M] is the
    origin and [e = 1]. *)
Lemma parabola_example_M : Parabola.M meet parabola_example = [< 1; 0; 0 >].
Proof.
  unfold Parabola.M, meet, crossProduct, parabola_example.
  cbn [Parabola.F1 Parabola.stdform e0 e1 e2]. to_R.
  destruct (Req_dec_T _ 0) as [ Z | Z ]; [ exfalso; lra | f_equal; lra ].
Qed.

Lemma parabola_example_e :
  Dist (Parabola.usr (Parabola.M meet parabola_example))
       (Parabola.usr (Parabola.F1 parabola_example)) / 2 = 1.
Proof.
  rewrite parabola_example_M.
  unfold Dist, Parabola.usr, parabola_example. cbn [Parabola.F1 X Y e1 e2]. to_R.
  replace ((0 - 0) * (0 - 0) + (0 - 2) * (0 - 2)) with (2 * 2) by lra.
  rewrite sqrt_square; lra.
Qed.

Lemma parabola_result_unnormalised_witness :
  Dist (Parabola.usr (Parabola.M meet parabola_example))
       (Parabola.usr (Parabola.F1 parabola_example)) / 2 <> 0 /\
  exists v,
    fst (parabola_evaluate meet parabola_example 3 true Parabola.init) = Ok v /\
    e0 v = 4 /\
    e1 v = 4 * (e1 v / e0 v) /\
    e2 v = 4 * (e2 v / e0 v).
Proof.
  assert (Ne : Dist (Parabola.usr (Parabola.M meet parabola_example))
                    (Parabola.usr (Parabola.F1 parabola_example)) / 2 <> 0)
    by (rewrite parabola_example_e; lra).
  split; [ exact Ne | ].
  destruct (parabola_result_unnormalised meet parabola_example 3 Parabola.init)
    as (v & Ev & _ & _ & E0 & _ & _ & Aff & _).
  destruct (Aff Ne) as (A1 & A2).
  rewrite parabola_example_e in E0, A1, A2.
  exists v. split; [ exact Ev | ]. split; [ lra | ]. split; lra.
Defined.

(** ** The documented examples, evaluated *)

(** The ellipse with foci (-1,4), (-1,-4): the midpoint is (-1, 0), and the
    point at [phi = 0] lies on the major axis through it. *)
Example ellipse_vertical_midpoint : Ellipse.M ellipse_vertical = mkpoint (-1) 0.
Proof. unfold Ellipse.M, ellipse_vertical; simpl. to_R. f_equal; lra. Qed.

Example ellipse_vertical_at_zero :
  fst (ellipse_evaluate ellipse_vertical 0 true Ellipse.init) = Ok [< 1; -1; -5 >].
Proof.
  rewrite ellipse_recompute_result. cbv zeta.
  rewrite ellipse_rotation_is_similarity, ellipse_vertical_Dist.
  assert (B : foci_angle (Ellipse.F0 ellipse_vertical) (Ellipse.F1 ellipse_vertical)
              = - (PI / 2)).
  { unfold foci_angle, ellipse_vertical; simpl.
    replace (-1 - -1) with 0 by lra. rewrite Rabs_R0.
    destruct (Rle_dec 0 (1 / 10000000)) as [ _ | N ]; [ | exfalso; lra ].
    destruct (Rlt_dec 0 (-4 - 4)) as [ P | _ ]; [ exfalso; lra | reflexivity ]. }
  rewrite B. unfold similarity, midpoint_of, matVecMult, innerProduct, Ellipse.majorAxis,
    ellipse_vertical.
  cbn [e0 e1 e2 X Y Ellipse.F0 Ellipse.F1 Ellipse.axis]. to_R.
  rewrite cos_neg, sin_neg, cos_PI2, sin_PI2, cos_0, sin_0.
  f_equal. f_equal; lra.
Qed.

(** The centre of the conic through (1,5), (1,2), (2,0), (0,0), (-1,5) is the
    finite point (1/2, 5/2). *)
Example five_points_example_midpoint (J : mat R -> mat R * mat R) :
  Conic.midpoint (snd (conic_evaluate J five_points_example 0 true Conic.init))
  = Ok [< -806400; -403200; -2016000 >].
Proof.
  rewrite conic_recompute_state. unfold Conic.midpoint.
  change (Conic.quadraticform (Conic.update J five_points_example Conic.init))
    with (Some (Conic.M (Conic.update J five_points_example Conic.init))).
  rewrite <- (conic_recompute_state J five_points_example 0 Conic.init).
  rewrite five_points_example_form.
  cbn [mget vget e0 e1 e2]. to_R. f_equal. f_equal; lra.
Qed.


(** * Further properties of the four curves *)

Unset Implicit Arguments.

(** ** Plane geometry and matrix algebra shared by the properties below *)

Lemma rotated_square (c s u w : R) :
  c * c + s * s = 1 ->
  (c * u - s * w) * (c * u - s * w) + (s * u + c * w) * (s * u + c * w) = u * u + w * w.
Proof. intros Hcs. nsatz. Qed.

Lemma parallel_components (c s dx dy : R) :
  c * c + s * s = 1 -> c * dy = s * dx ->
  dx = c * (c * dx + s * dy) /\ dy = s * (c * dx + s * dy) /\
  (c * dx + s * dy) * (c * dx + s * dy) = dx * dx + dy * dy.
Proof. intros Hcs Hpar. repeat split; nsatz. Qed.

Lemma unit_circle_identity (x : R) : cos x * cos x + sin x * sin x = 1.
Proof. pose proof (sin2_cos2 x) as T. unfold Rsqr in T. lra. Qed.

Lemma atan_parallel (t : R) : sin (atan t) = t * cos (atan t).
Proof.
  pose proof (atan_bound t) as B.
  assert (C : 0 < cos (atan t)) by (apply cos_gt_0; lra).
  pose proof (tan_atan t) as T. unfold tan in T.
  rewrite <- T at 2. field. lra.
Qed.

(** The angle of the focal axis points along the segment of the foci. *)
Lemma foci_angle_parallel (f0 f1 : point R) :
  X f1 - X f0 = 0 \/ Rabs (X f1 - X f0) > 1 / 10000000 ->
  cos (foci_angle f0 f1) * (Y f1 - Y f0) = sin (foci_angle f0 f1) * (X f1 - X f0).
Proof.
  intros Hx. unfold foci_angle.
  set (dx := X f1 - X f0) in *. set (dy := Y f1 - Y f0).
  destruct (Rle_dec (Rabs dx) (1 / 10000000)) as [ V | V ].
  - assert (Z : dx = 0) by (destruct Hx; [ assumption | lra ]).
    rewrite Z.
    destruct (Rlt_dec 0 dy); [ rewrite cos_PI2 | rewrite cos_neg, cos_PI2 ]; ring.
  - assert (Nz : dx <> 0).
    { intros Z. rewrite Z, Rabs_R0 in V. lra. }
    pose proof (atan_parallel (dy / dx)) as A.
    unfold Ratan2.
    destruct (Rlt_dec 0 dx) as [ P | P ].
    + replace (atan (dy / dx) + 0) with (atan (dy / dx)) by ring.
      rewrite A. field. exact Nz.
    + destruct (Rlt_dec dx 0) as [ N | N ]; [ | exfalso; lra ].
      destruct (Rle_dec 0 dy) as [ U | U ].
      * rewrite !neg_cos, !neg_sin. rewrite A. field. exact Nz.
      * replace (atan (dy / dx) - PI + PI) with (atan (dy / dx)) by ring.
        rewrite A. field. exact Nz.
Qed.

Lemma component_Ok {A S} (i : idx) (r : result (vec A) * S) (v : vec A) :
  fst r = Ok v -> fst (component i r) = Ok (vget v i).
Proof. intros E. unfold component. now rewrite E. Qed.

Lemma Dist_square (p q : point R) :
  Dist p q * Dist p q = (X p - X q) * (X p - X q) + (Y p - Y q) * (Y p - Y q).
Proof.
  unfold Dist. to_R. apply sqrt_sqrt.
  apply Rplus_le_le_0_compat; apply Rle_0_sqr.
Qed.




(** The form [T^t C T] at [v] is the form [C] at [T v]. *)
Lemma quad_congruence (C T : mat R) (v : vec R) :
  quad (matMatMult (transpose T) (matMatMult C T)) v = quad C (matVecMult T v).
Proof.
  destruct C as [[c00 c01 c02] [c10 c11 c12] [c20 c21 c22]].
  destruct T as [[t00 t01 t02] [t10 t11 t12] [t20 t21 t22]].
  destruct v as [v0 v1 v2].
  run_R. ring.
Qed.

Lemma Reqb_false (x y : R) : x <> y -> Reqb x y = false.
Proof. intros N. unfold Reqb. destruct (Req_dec_T x y); [ contradiction | reflexivity ]. Qed.



Lemma hyperbola_vertical_Dist :
  Dist (Hyperbola.F1 hyperbola_vertical) (Hyperbola.F0 hyperbola_vertical) = 8.
Proof.
  unfold Dist, hyperbola_vertical; simpl. to_R.
  replace ((-1 - -1) * (-1 - -1) + (-3 - 5) * (-3 - 5)) with (8 * 8) by lra.
  apply sqrt_square; lra.
Qed.

(** ** The focal definitions of the three focal curves *)

Lemma focal_core (c s cphi sphi a e b dx dy : R) :
  c * c + s * s = 1 -> cphi * cphi + sphi * sphi = 1 ->
  c * dy = s * dx -> dx * dx + dy * dy = (2 * e) * (2 * e) ->
  b * b = a * a - e * e -> 0 <= e -> e <= a ->
  sqrt ((- (dx / 2) + (c * (a * cphi) - s * (b * sphi))) * (- (dx / 2) + (c * (a * cphi) - s * (b * sphi)))
        + (- (dy / 2) + (s * (a * cphi) + c * (b * sphi))) * (- (dy / 2) + (s * (a * cphi) + c * (b * sphi))))
  + sqrt ((dx / 2 + (c * (a * cphi) - s * (b * sphi))) * (dx / 2 + (c * (a * cphi) - s * (b * sphi)))
        + (dy / 2 + (s * (a * cphi) + c * (b * sphi))) * (dy / 2 + (s * (a * cphi) + c * (b * sphi))))
  = 2 * a.
Proof.
  intros Hcs Hphi Hpar Hd Hb He Hea.
  destruct (parallel_components c s dx dy Hcs Hpar) as (Hdx & Hdy & HPP).
  remember (c * dx + s * dy) as P eqn:EP.
  assert (HP : (P - 2 * e) * (P + 2 * e) = 0) by nsatz.
  assert (Hc1 : -1 <= cphi <= 1) by nra.
  assert (S1 : forall t, (c * (a * cphi - t) - s * (b * sphi)) * (c * (a * cphi - t) - s * (b * sphi))
        + (s * (a * cphi - t) + c * (b * sphi)) * (s * (a * cphi - t) + c * (b * sphi))
        = (a * cphi - t) * (a * cphi - t) + (b * sphi) * (b * sphi))
    by (intros t; apply rotated_square; exact Hcs).
  assert (Q1 : forall t, t * t = e * e ->
            (a * cphi - t) * (a * cphi - t) + (b * sphi) * (b * sphi)
            = (a - t * cphi) * (a - t * cphi))
    by (intros t Ht; nsatz).
  clear EP HPP.
  destruct (Rmult_integral _ _ HP) as [ HP1 | HP1 ].
  - assert (EP : P = 2 * e) by lra. subst P.
    match goal with |- sqrt ?x + sqrt ?y = _ =>
      replace x with ((a - e * cphi) * (a - e * cphi));
      [ replace y with ((a - (- e) * cphi) * (a - (- e) * cphi)) | ] end.
    + rewrite !sqrt_square by nra. lra.
    + rewrite <- (Q1 (- e)) by ring. rewrite <- S1. rewrite Hdx, Hdy. f_equal; field.
    + rewrite <- (Q1 e) by ring. rewrite <- S1. rewrite Hdx, Hdy. f_equal; field.
  - assert (EP : P = - (2 * e)) by lra. subst P.
    match goal with |- sqrt ?x + sqrt ?y = _ =>
      replace x with ((a - (- e) * cphi) * (a - (- e) * cphi));
      [ replace y with ((a - e * cphi) * (a - e * cphi)) | ] end.
    + rewrite !sqrt_square by nra. lra.
    + rewrite <- (Q1 e) by ring. rewrite <- S1. rewrite Hdx, Hdy. f_equal; field.
    + rewrite <- (Q1 (- e)) by ring. rewrite <- S1. rewrite Hdx, Hdy. f_equal; field.
Qed.

(** X1. An ellipse given by real foci and a major axis at least as long as
    their distance: every point a non-suspended call returns has distances to
    the two foci that add up to the major axis.  (The foci are either exactly
    above each other or more than [Mat.eps] apart in x, so that the angle of
    the axis is the angle of the segment of the foci.) *)
Theorem ellipse_focal_sum (inp : Ellipse.Inputs) (phi : R) (st : Ellipse.State) :
  Ellipse.majorAxis inp >= Dist (Ellipse.F1 inp) (Ellipse.F0 inp) ->
  X (Ellipse.F1 inp) - X (Ellipse.F0 inp) = 0 \/
    Rabs (X (Ellipse.F1 inp) - X (Ellipse.F0 inp)) > 1 / 10000000 ->
  exists x y,
    fst (Ellipse.curve_X inp phi false st) = Ok x /\
    fst (Ellipse.curve_Y inp phi false st) = Ok y /\
    Dist (mkpoint x y) (Ellipse.F0 inp) + Dist (mkpoint x y) (Ellipse.F1 inp)
      = Ellipse.majorAxis inp.
Proof.
  intros Hae Hx.
  pose proof (ellipse_recompute_result inp phi st) as Ev. cbv zeta in Ev.
  rewrite ellipse_rotation_is_similarity in Ev.
  pose proof (foci_angle_parallel (Ellipse.F0 inp) (Ellipse.F1 inp) Hx) as Hpar.
  pose proof (Dist_square (Ellipse.F1 inp) (Ellipse.F0 inp)) as HD.
  pose proof (Dist_nonnegative (Ellipse.F1 inp) (Ellipse.F0 inp)) as HD0.
  set (beta := foci_angle (Ellipse.F0 inp) (Ellipse.F1 inp)) in *.
  set (D := Dist (Ellipse.F1 inp) (Ellipse.F0 inp)) in *.
  set (A := Ellipse.majorAxis inp) in *.
  eexists; eexists.
  split; [ apply component_Ok; exact Ev | ].
  split; [ apply component_Ok; exact Ev | ].
  destruct inp as [[x0 y0] [x1 y1] ax].
  cbn [Ellipse.F0 Ellipse.F1 X Y] in *.
  unfold vget, matVecMult, innerProduct, similarity, midpoint_of, Dist.
  cbn [e0 e1 e2 X Y]. to_R.
  set (a := A / 2). set (e := D / 2). set (b := sqrt (a * a - e * e)).
  assert (Eb : sqrt (A * (5 * / 10) * (A * (5 * / 10)) - D * (5 * / 10) * (D * (5 * / 10))) = b)
    by (unfold b, a, e; f_equal; field).
  rewrite Eb.
  assert (Hb : b * b = a * a - e * e) by (unfold b; apply sqrt_sqrt; unfold a, e; nra).
  assert (Hcs : cos beta * cos beta + sin beta * sin beta = 1)
    by (pose proof (sin2_cos2 beta) as T; unfold Rsqr in T; lra).
  assert (Hphi : cos phi * cos phi + sin phi * sin phi = 1)
    by (pose proof (sin2_cos2 phi) as T; unfold Rsqr in T; lra).
  assert (Hd : (x1 - x0) * (x1 - x0) + (y1 - y0) * (y1 - y0) = 2 * e * (2 * e))
    by (unfold e; lra).
  apply eq_trans with (2 * a); [ | unfold a; field ].
  rewrite <- (focal_core (cos beta) (sin beta) (cos phi) (sin phi) a e b (x1 - x0) (y1 - y0)
                Hcs Hphi Hpar Hd Hb); [ | unfold e; lra | unfold a, e; lra ].
  rewrite Rplus_comm. unfold a. f_equal; f_equal; field.
Qed.

Lemma ellipse_focal_sum_witness :
  Ellipse.majorAxis ellipse_vertical
    >= Dist (Ellipse.F1 ellipse_vertical) (Ellipse.F0 ellipse_vertical) /\
  exists x y,
    fst (Ellipse.curve_X ellipse_vertical 1 false Ellipse.init) = Ok x /\
    fst (Ellipse.curve_Y ellipse_vertical 1 false Ellipse.init) = Ok y /\
    Dist (mkpoint x y) (Ellipse.F0 ellipse_vertical)
    + Dist (mkpoint x y) (Ellipse.F1 ellipse_vertical)
    = Ellipse.majorAxis ellipse_vertical.
Proof.
  assert (Hae : Ellipse.majorAxis ellipse_vertical
                >= Dist (Ellipse.F1 ellipse_vertical) (Ellipse.F0 ellipse_vertical)).
  { rewrite ellipse_vertical_Dist. unfold Ellipse.majorAxis, ellipse_vertical; simpl. lra. }
  split; [ exact Hae | ].
  apply (ellipse_focal_sum ellipse_vertical 1 Ellipse.init Hae).
  left. unfold ellipse_vertical; simpl. lra.
Defined.

Lemma abs_difference (q a : R) :
  Rabs a <= Rabs q -> Rabs (Rabs (q + a) - Rabs (q - a)) = 2 * Rabs a.
Proof.
  unfold Rabs.
  repeat match goal with |- context [Rcase_abs ?x] => destruct (Rcase_abs x) end; lra.
Qed.

Lemma hyper_core (c s cphi sphi a e b dx dy : R) :
  c * c + s * s = 1 -> cphi * cphi + sphi * sphi = 1 -> cphi <> 0 ->
  c * dy = s * dx -> dx * dx + dy * dy = (2 * e) * (2 * e) ->
  b * b = e * e - a * a -> Rabs a <= e ->
  Rabs
    (sqrt ((dx / 2 + (c * (a / cphi) - s * (b * (sphi / cphi))))
           * (dx / 2 + (c * (a / cphi) - s * (b * (sphi / cphi))))
           + (dy / 2 + (s * (a / cphi) + c * (b * (sphi / cphi))))
             * (dy / 2 + (s * (a / cphi) + c * (b * (sphi / cphi)))))
     - sqrt ((- (dx / 2) + (c * (a / cphi) - s * (b * (sphi / cphi))))
             * (- (dx / 2) + (c * (a / cphi) - s * (b * (sphi / cphi))))
             + (- (dy / 2) + (s * (a / cphi) + c * (b * (sphi / cphi))))
               * (- (dy / 2) + (s * (a / cphi) + c * (b * (sphi / cphi))))))
  = 2 * Rabs a.
Proof.
  intros Hcs Hphi Hc0 Hpar Hd Hb Hae.
  destruct (parallel_components c s dx dy Hcs Hpar) as (Hdx & Hdy & HPP).
  remember (c * dx + s * dy) as P eqn:EP.
  assert (HP : (P - 2 * e) * (P + 2 * e) = 0) by nsatz.
  assert (He : 0 <= e) by (pose proof (Rabs_pos a); lra).
  set (u := a / cphi). set (w := b * (sphi / cphi)). set (q := e / cphi).
  assert (S1 : forall t, (c * (u - t) - s * w) * (c * (u - t) - s * w)
        + (s * (u - t) + c * w) * (s * (u - t) + c * w) = (u - t) * (u - t) + w * w)
    by (intros t; apply rotated_square; exact Hcs).
  assert (Q0 : forall g, g * g = 1 ->
            (a - g * e * cphi) * (a - g * e * cphi) + (b * sphi) * (b * sphi)
            = (e - g * a * cphi) * (e - g * a * cphi))
    by (intros g Hg; nsatz).
  assert (Q1 : forall g, g * g = 1 ->
            (u - g * e) * (u - g * e) + w * w = Rsqr (q - g * a)).
  { intros g Hg. unfold u, w, q, Rsqr.
    replace ((a / cphi - g * e) * (a / cphi - g * e) + b * (sphi / cphi) * (b * (sphi / cphi)))
      with (((a - g * e * cphi) * (a - g * e * cphi) + (b * sphi) * (b * sphi)) / (cphi * cphi))
      by (field; exact Hc0).
    rewrite (Q0 g Hg). field. exact Hc0. }
  assert (Hq : Rabs a <= Rabs q).
  { unfold q. unfold Rdiv. rewrite Rabs_mult, Rabs_inv, (Rabs_pos_eq e He).
    assert (C1 : 0 < Rabs cphi) by (apply Rabs_pos_lt; exact Hc0).
    assert (C2 : Rabs cphi <= 1).
    { assert (cphi * cphi <= 1) by nra. unfold Rabs. destruct (Rcase_abs cphi); nra. }
    assert (C3 : 1 <= / Rabs cphi).
    { rewrite <- Rinv_1. apply Rinv_le_contravar; lra. }
    nra. }
  clear EP HPP.
  destruct (Rmult_integral _ _ HP) as [ HP1 | HP1 ].
  - assert (EP : P = 2 * e) by lra. subst P.
    match goal with |- Rabs (sqrt ?x - sqrt ?y) = _ =>
      replace x with (Rsqr (q - (-1) * a));
      [ replace y with (Rsqr (q - 1 * a)) | ] end.
    + rewrite !sqrt_Rsqr_abs.
      replace (q - -1 * a) with (q + a) by ring. replace (q - 1 * a) with (q - a) by ring.
      now apply abs_difference.
    + rewrite <- (Q1 1) by ring. rewrite <- S1. rewrite Hdx, Hdy. f_equal; field.
    + rewrite <- (Q1 (-1)) by ring. rewrite <- S1. rewrite Hdx, Hdy. f_equal; field.
  - assert (EP : P = - (2 * e)) by lra. subst P.
    match goal with |- Rabs (sqrt ?x - sqrt ?y) = _ =>
      replace x with (Rsqr (q - 1 * a));
      [ replace y with (Rsqr (q - (-1) * a)) | ] end.
    + rewrite !sqrt_Rsqr_abs.
      replace (q - -1 * a) with (q + a) by ring. replace (q - 1 * a) with (q - a) by ring.
      rewrite Rabs_minus_sym. now apply abs_difference.
    + rewrite <- (Q1 (-1)) by ring. rewrite <- S1. rewrite Hdx, Hdy. f_equal; field.
    + rewrite <- (Q1 1) by ring. rewrite <- S1. rewrite Hdx, Hdy. f_equal; field.
Qed.

Lemma hyperbola_rotation_is_similarity (inp : Hyperbola.Inputs) :
  Hyperbola.transformFunc inp
  = similarity (midpoint_of (Hyperbola.F0 inp) (Hyperbola.F1 inp))
               (foci_angle (Hyperbola.F0 inp) (Hyperbola.F1 inp)).
Proof.
  destruct inp as [[x0 y0] [x1 y1] ax].
  unfold Hyperbola.transformFunc, similarity, midpoint_of, foci_angle, Hyperbola.M.
  cbn [Hyperbola.F0 Hyperbola.F1 X Y]. to_R.
  set (beta := if Rltb _ (Rabs _) then _ else _).
  set (beta' := if Rle_dec (Rabs _) _ then _ else _).
  assert (B : beta = beta').
  { subst beta beta'.
    destruct (Rle_dec (Rabs (x1 - x0)) (1 / 10000000)) as [ V | V ].
    - replace (Rltb (1 * / 10000000) (Rabs (x1 - x0))) with false
        by (symmetry; apply Rltb_false; lra).
      destruct (Rlt_dec 0 (y1 - y0)) as [ U | U ]; Rcompare; lra.
    - replace (Rltb (1 * / 10000000) (Rabs (x1 - x0))) with true
        by (symmetry; apply Rltb_true; lra).
      destruct (Rlt_dec 0 (x1 - x0)) as [ P | P ]; Rcompare; lra. }
  rewrite B. f_equal; f_equal; lra.
Qed.

Lemma hyperbola_recompute_result (inp : Hyperbola.Inputs) (phi : R) (st : Hyperbola.State) :
  fst (Hyperbola.polarForm inp phi false st)
  = Ok (matVecMult (Hyperbola.transformFunc inp)
          [< lit 1;
             (Hyperbola.majorAxis inp * lit 0.5 / Math_cos phi)%js;
             (Math_sqrt (- (Hyperbola.majorAxis inp * lit 0.5) * (Hyperbola.majorAxis inp * lit 0.5)
                         + Dist (Hyperbola.F1 inp) (Hyperbola.F0 inp) * lit 0.5
                           * (Dist (Hyperbola.F1 inp) (Hyperbola.F0 inp) * lit 0.5))
              * Math_tan phi)%js >]).
Proof. reflexivity. Qed.

(** X2. A hyperbola given by real foci and a major axis no longer than their
    distance: wherever [cos phi] is not zero, the point a non-suspended call
    returns has distances to the two foci that differ, in absolute value, by
    the major axis. *)
Theorem hyperbola_focal_difference (inp : Hyperbola.Inputs) (phi : R) (st : Hyperbola.State) :
  Rabs (Hyperbola.majorAxis inp) <= Dist (Hyperbola.F1 inp) (Hyperbola.F0 inp) ->
  cos phi <> 0 ->
  X (Hyperbola.F1 inp) - X (Hyperbola.F0 inp) = 0 \/
    Rabs (X (Hyperbola.F1 inp) - X (Hyperbola.F0 inp)) > 1 / 10000000 ->
  exists x y,
    fst (Hyperbola.curve_X inp phi false st) = Ok x /\
    fst (Hyperbola.curve_Y inp phi false st) = Ok y /\
    Rabs (Dist (mkpoint x y) (Hyperbola.F0 inp) - Dist (mkpoint x y) (Hyperbola.F1 inp))
      = Rabs (Hyperbola.majorAxis inp).
Proof.
  intros Hae Hc0 Hx.
  pose proof (hyperbola_recompute_result inp phi st) as Ev.
  rewrite hyperbola_rotation_is_similarity in Ev.
  pose proof (foci_angle_parallel (Hyperbola.F0 inp) (Hyperbola.F1 inp) Hx) as Hpar.
  pose proof (Dist_square (Hyperbola.F1 inp) (Hyperbola.F0 inp)) as HD.
  pose proof (Dist_nonnegative (Hyperbola.F1 inp) (Hyperbola.F0 inp)) as HD0.
  set (beta := foci_angle (Hyperbola.F0 inp) (Hyperbola.F1 inp)) in *.
  set (D := Dist (Hyperbola.F1 inp) (Hyperbola.F0 inp)) in *.
  set (A := Hyperbola.majorAxis inp) in *.
  eexists; eexists.
  split; [ apply component_Ok; exact Ev | ].
  split; [ apply component_Ok; exact Ev | ].
  destruct inp as [[x0 y0] [x1 y1] ax].
  cbn [Hyperbola.F0 Hyperbola.F1 X Y] in *.
  unfold vget, matVecMult, innerProduct, similarity, midpoint_of, Dist.
  cbn [e0 e1 e2 X Y]. to_R. unfold tan.
  set (a := A / 2). set (e := D / 2). set (b := sqrt (e * e - a * a)).
  assert (Eb : sqrt (- (A * (5 * / 10)) * (A * (5 * / 10)) + D * (5 * / 10) * (D * (5 * / 10))) = b)
    by (unfold b, a, e; f_equal; field).
  rewrite Eb.
  assert (Ha : Rabs a <= e).
  { unfold a, e. unfold Rdiv. rewrite Rabs_mult, (Rabs_pos_eq (/ 2)) by lra. lra. }
  assert (Hb : b * b = e * e - a * a).
  { unfold b; apply sqrt_sqrt.
    assert (a * a <= e * e); [ | lra ].
    unfold Rabs in Ha. destruct (Rcase_abs a); nra. }
  assert (Hcs : cos beta * cos beta + sin beta * sin beta = 1)
    by (pose proof (sin2_cos2 beta) as T; unfold Rsqr in T; lra).
  assert (Hphi : cos phi * cos phi + sin phi * sin phi = 1)
    by (pose proof (sin2_cos2 phi) as T; unfold Rsqr in T; lra).
  assert (Hd : (x1 - x0) * (x1 - x0) + (y1 - y0) * (y1 - y0) = 2 * e * (2 * e))
    by (unfold e; lra).
  apply eq_trans with (2 * Rabs a);
    [ | unfold a, Rdiv; rewrite Rabs_mult, (Rabs_pos_eq (/ 2)) by lra; lra ].
  rewrite <- (hyper_core (cos beta) (sin beta) (cos phi) (sin phi) a e b (x1 - x0) (y1 - y0)
                Hcs Hphi Hc0 Hpar Hd Hb Ha).
  unfold a. f_equal. f_equal; f_equal; f_equal; field; exact Hc0.
Qed.

Lemma hyperbola_focal_difference_witness :
  Rabs (Hyperbola.majorAxis hyperbola_vertical)
    <= Dist (Hyperbola.F1 hyperbola_vertical) (Hyperbola.F0 hyperbola_vertical) /\
  cos 0 <> 0 /\
  exists x y,
    fst (Hyperbola.curve_X hyperbola_vertical 0 false Hyperbola.init) = Ok x /\
    fst (Hyperbola.curve_Y hyperbola_vertical 0 false Hyperbola.init) = Ok y /\
    Rabs (Dist (mkpoint x y) (Hyperbola.F0 hyperbola_vertical)
          - Dist (mkpoint x y) (Hyperbola.F1 hyperbola_vertical))
    = Rabs (Hyperbola.majorAxis hyperbola_vertical).
Proof.
  assert (Hae : Rabs (Hyperbola.majorAxis hyperbola_vertical)
                <= Dist (Hyperbola.F1 hyperbola_vertical) (Hyperbola.F0 hyperbola_vertical)).
  { rewrite hyperbola_vertical_Dist. unfold Hyperbola.majorAxis, hyperbola_vertical; simpl.
    rewrite Rabs_pos_eq; lra. }
  assert (Hc : cos 0 <> 0) by (rewrite cos_0; lra).
  split; [ exact Hae | ]. split; [ exact Hc | ].
  apply (hyperbola_focal_difference hyperbola_vertical 0 Hyperbola.init Hae Hc).
  left. unfold hyperbola_vertical; simpl. lra.
Defined.

Lemma parabola_core (c s sl MX MY FX FY t : R) :
  c * c + s * s = 1 -> s = sl * c ->
  (FX - MX) + sl * (FY - MY) = 0 -> 0 < c * (FY - MY) ->
  let e := sqrt ((MX - FX) * (MX - FX) + (MY - FY) * (MY - FY)) * (1 / 2) in
  let e4 := e * 4 in
  let a := (MX + FX) * (1 / 2) in
  let b := (MY + FY) * (1 / 2) in
  let v1 := (a * (1 - c) + b * s) * e4 + c * (e4 * (t + a)) + - s * (t * t + b * e4) in
  let v2 := (b * (1 - c) - a * s) * e4 + s * (e4 * (t + a)) + c * (t * t + b * e4) in
  e4 <> 0 /\
  sqrt ((v1 / e4 - FX) * (v1 / e4 - FX) + (v2 / e4 - FY) * (v2 / e4 - FY))
  = Rabs (sl * (v1 / e4 - MX) - (v2 / e4 - MY)) / sqrt (1 + sl * sl).
Proof.
  intros Hcs Hs Hfoot Hsign e e4 a b v1 v2.
  assert (Nc : c <> 0) by (intros Z; rewrite Z in Hsign; lra).
  set (k := (FY - MY) / c).
  assert (Ek : FY - MY = k * c) by (unfold k; field; exact Nc).
  assert (Pk : 0 < k).
  { assert (0 < k * (c * c)) by (replace (k * (c * c)) with (c * (FY - MY)) by (rewrite Ek; ring); lra).
    assert (0 < c * c) by nra. nra. }
  assert (Ex : FX - MX = - (k * s)) by (rewrite Hs; nsatz).
  assert (Ee : e = k / 2).
  { unfold e.
    rewrite (sqrt_lem_1 ((MX - FX) * (MX - FX) + (MY - FY) * (MY - FY)) k); [ field | nra | lra | ].
    replace (MX - FX) with (k * s) by lra. replace (MY - FY) with (- (k * c)) by lra.
    nsatz. }
  assert (E4 : e4 = 2 * k) by (unfold e4; rewrite Ee; field).
  split; [ rewrite E4; lra | ].
  set (w := t * t / (2 * k) + k / 2).
  assert (Pw : 0 < w).
  { unfold w. assert (0 <= t * t / (2 * k)); [ | lra ].
    apply Rmult_le_pos; [ nra | ]. apply Rlt_le, Rinv_0_lt_compat. lra. }
  assert (FXe : FX = MX - k * s) by lra.
  assert (FYe : FY = MY + k * c) by lra.
  assert (X1 : v1 / e4 - FX = c * t - s * (t * t / (2 * k) - k / 2)).
  { unfold v1, a, b. rewrite E4, FXe, FYe. field_simplify_eq; [ | lra ]. cbn [pow]. nsatz. }
  assert (Y1 : v2 / e4 - FY = s * t + c * (t * t / (2 * k) - k / 2)).
  { unfold v2, a, b. rewrite E4, FXe, FYe. field_simplify_eq; [ | lra ]. cbn [pow]. nsatz. }
  assert (L1 : sl * (v1 / e4 - MX) - (v2 / e4 - MY) = - w * / c).
  { unfold v1, v2, a, b, w. rewrite E4, FXe, FYe, Hs.
    field_simplify_eq; [ | split; [ exact Nc | lra ] ]. cbn [pow].
    assert (Hcs' : c * c + sl * c * (sl * c) = 1) by (rewrite <- Hs; exact Hcs).
    clear - Hcs'. nsatz. }
  assert (Sq : sqrt (1 + sl * sl) = / Rabs c).
  { assert (Pc : 0 < Rabs c) by (apply Rabs_pos_lt; exact Nc).
    apply sqrt_lem_1; [ nra | apply Rlt_le, Rinv_0_lt_compat; exact Pc | ].
    rewrite <- Rinv_mult. replace (Rabs c * Rabs c) with (c * c)
      by (unfold Rabs; destruct (Rcase_abs c); ring).
    assert (Hcs' : c * c * (1 + sl * sl) = 1) by (rewrite Hs in Hcs; lra).
    apply Rmult_eq_reg_l with (c * c); [ | nra ].
    rewrite Rinv_r by nra. symmetry. exact Hcs'. }
  rewrite X1, Y1, L1, Sq.
  replace ((c * t - s * (t * t / (2 * k) - k / 2)) * (c * t - s * (t * t / (2 * k) - k / 2))
           + (s * t + c * (t * t / (2 * k) - k / 2)) * (s * t + c * (t * t / (2 * k) - k / 2)))
    with (w * w).
  - rewrite sqrt_square by lra.
    rewrite Rabs_mult, Rabs_inv, Rabs_Ropp, (Rabs_pos_eq w) by lra.
    field. apply Rabs_no_R0. exact Nc.
  - unfold w. field_simplify_eq; [ | lra ]. cbn [pow]. clear - Hcs. nsatz.
Qed.

Lemma parabola_angle (sl MX MY FX FY : R) :
  FY <> MY ->
  let beta := (Math_atan sl
               + (if (FY - MY <? lit 0) || ((FY =? MY) && (FX >? MX)) then Math_PI else lit 0))%js in
  sin beta = sl * cos beta /\ 0 < cos beta * (FY - MY).
Proof.
  intros N beta. subst beta. to_R. rewrite (Reqb_false FY MY N). cbn [andb orb].
  rewrite orb_false_r.
  pose proof (atan_bound sl) as B.
  assert (C : 0 < cos (atan sl)) by (apply cos_gt_0; lra).
  pose proof (atan_parallel sl) as A.
  destruct (Rlt_dec (FY - MY) 0) as [ L | L ].
  - replace (Rltb (FY - MY) (0 * / 1)) with true by (symmetry; apply Rltb_true; lra).
    rewrite neg_sin, neg_cos, A. split; [ ring | nra ].
  - replace (Rltb (FY - MY) (0 * / 1)) with false by (symmetry; apply Rltb_false; lra).
    replace (atan sl + 0 * / 1) with (atan sl) by lra.
    split; [ exact A | ]. assert (0 < FY - MY) by lra. nra.
Qed.

(** X3. A parabola whose directrix has the finite slope [getSlope] and whose
    point [M] is the foot of the perpendicular from the focus on it: every
    vector a non-suspended call returns has a first component that is not
    zero, and the point it stands for is as far from the focus as from the
    directrix. *)
Theorem parabola_focus_directrix mll (inp : Parabola.Inputs) (t : R) (st : Parabola.State) :
  let Mp := Parabola.usr (Parabola.M mll inp) in
  let Fp := Parabola.usr (Parabola.F1 inp) in
  let sl := Parabola.getSlope inp in
  (X Fp - X Mp) + sl * (Y Fp - Y Mp) = 0 ->
  Y Fp <> Y Mp ->
  exists v,
    fst (parabola_evaluate mll inp t true st) = Ok v /\
    e0 v <> 0 /\
    Dist (mkpoint (e1 v / e0 v) (e2 v / e0 v)) Fp
      = line_distance (mkpoint (e1 v / e0 v) (e2 v / e0 v)) Mp sl.
Proof.
  intros Mp Fp sl Hfoot Hne.
  rewrite parabola_recompute_result. cbv zeta. cbn [fst].
  eexists. split; [ reflexivity | ].
  unfold Parabola.transformFunc. fold Mp Fp sl.
  match goal with |- context [Math_cos ?x] => set (beta := x) end.
  destruct (parabola_angle sl (X Mp) (Y Mp) (X Fp) (Y Fp) Hne) as (Hs & Hsign).
  cbv zeta in Hs, Hsign. fold beta in Hs, Hsign.
  assert (Hcs : cos beta * cos beta + sin beta * sin beta = 1)
    by (pose proof (sin2_cos2 beta) as T; unfold Rsqr in T; lra).
  destruct (parabola_core (cos beta) (sin beta) sl (X Mp) (Y Mp) (X Fp) (Y Fp) t
              Hcs Hs Hfoot Hsign) as (N4 & Core).
  cbv zeta in N4, Core.
  unfold line_distance, Dist, matVecMult, innerProduct. cbn [e0 e1 e2 X Y]. to_R.
  replace (5 * / 10) with (1 / 2) by lra.
  replace (4 * / 1) with 4 by lra.
  replace (1 * / 1) with 1 by lra.
  replace (0 * / 1) with 0 by lra.
  set (e4 := sqrt ((X Mp - X Fp) * (X Mp - X Fp) + (Y Mp - Y Fp) * (Y Mp - Y Fp)) * (1 / 2) * 4) in *.
  match goal with |- context [1 * e4 + 0 * ?x + 0 * ?y] =>
    replace (1 * e4 + 0 * x + 0 * y) with e4 by ring end.
  split; [ exact N4 | exact Core ].
Qed.

Lemma parabola_focus_directrix_witness :
  Y (Parabola.usr (Parabola.F1 parabola_example))
    <> Y (Parabola.usr (Parabola.M meet parabola_example)) /\
  exists v,
    fst (parabola_evaluate meet parabola_example 3 true Parabola.init) = Ok v /\
    e0 v <> 0 /\
    Dist (mkpoint (e1 v / e0 v) (e2 v / e0 v)) (Parabola.usr (Parabola.F1 parabola_example))
    = line_distance (mkpoint (e1 v / e0 v) (e2 v / e0 v))
        (Parabola.usr (Parabola.M meet parabola_example)) (Parabola.getSlope parabola_example).
Proof.
  assert (Hne : Y (Parabola.usr (Parabola.F1 parabola_example))
                <> Y (Parabola.usr (Parabola.M meet parabola_example))).
  { rewrite parabola_example_M. unfold Parabola.usr, parabola_example; simpl. lra. }
  split; [ exact Hne | ].
  apply (parabola_focus_directrix meet parabola_example 3 Parabola.init); [ | exact Hne ].
  rewrite parabola_example_M. unfold Parabola.usr, parabola_example; simpl. lra.
Defined.



(** ** The rotation matrices *)

Lemma motion_preserves_Dist (tx ty c s : R) (p q : point R) :
  c * c + s * s = 1 ->
  let m := [< [< lit 1; lit 0; lit 0 >]; [< tx; c; - s >]; [< ty; s; c >] >]%js in
  Dist (image m p) (image m q) = Dist p q /\
  e0 (matVecMult m [< 1; X p; Y p >]) = 1.
Proof.
  intros Hcs m. destruct p as [px py], q as [qx qy]. split.
  - unfold Dist, image, m, matVecMult, innerProduct. cbn [X Y e0 e1 e2]. to_R.
    f_equal. rewrite ?Rinv_1.
    replace (tx * 1 + c * px + - s * py - (tx * 1 + c * qx + - s * qy))
      with (c * (px - qx) - s * (py - qy)) by ring.
    replace (ty * 1 + s * px + c * py - (ty * 1 + s * qx + c * qy))
      with (s * (px - qx) + c * (py - qy)) by ring.
    nsatz.
  - unfold m, matVecMult, innerProduct. cbn [X Y e0 e1 e2]. to_R. lra.
Qed.

(** X5. The matrix [transformFunc] of the ellipse, of the hyperbola and of
    the parabola is a rigid motion of the plane: it keeps the distance of any
    two points and the homogeneous coordinate 1; for the ellipse and the
    hyperbola it carries the origin to the midpoint [M] of the foci, and for
    the parabola it fixes the vertex, halfway between the focus and [M]. *)
Theorem rotationMatrix_is_motion :
  (forall (inp : Ellipse.Inputs) (p q : point R),
     let m := Ellipse.transformFunc inp in
     Dist (image m p) (image m q) = Dist p q /\
     e0 (matVecMult m [< 1; X p; Y p >]) = 1 /\
     image m (mkpoint 0 0) = Ellipse.M inp) /\
  (forall (inp : Hyperbola.Inputs) (p q : point R),
     let m := Hyperbola.transformFunc inp in
     Dist (image m p) (image m q) = Dist p q /\
     e0 (matVecMult m [< 1; X p; Y p >]) = 1 /\
     image m (mkpoint 0 0) = Hyperbola.M inp) /\
  (forall mll (inp : Parabola.Inputs) (p q : point R),
     let m := Parabola.transformFunc mll inp in
     let vertex :=
       mkpoint ((e1 (Parabola.M mll inp) + e1 (Parabola.F1 inp)) / 2)
               ((e2 (Parabola.M mll inp) + e2 (Parabola.F1 inp)) / 2) in
     Dist (image m p) (image m q) = Dist p q /\
     e0 (matVecMult m [< 1; X p; Y p >]) = 1 /\
     image m vertex = vertex).
Proof.
  split; [ | split ].
  - intros inp p q m. subst m. unfold Ellipse.transformFunc.
    match goal with |- context [Math_cos ?x] => set (beta := x) end.
    assert (Hcs : cos beta * cos beta + sin beta * sin beta = 1)
      by (pose proof (sin2_cos2 beta) as T; unfold Rsqr in T; lra).
    destruct (motion_preserves_Dist (X (Ellipse.M inp)) (Y (Ellipse.M inp))
                (cos beta) (sin beta) p q Hcs) as (D1 & D2).
    split; [ exact D1 | ]. split; [ exact D2 | ].
    unfold image, matVecMult, innerProduct. cbn [X Y e0 e1 e2].
    destruct (Ellipse.M inp) as [mx my]. cbn [X Y]. to_R. f_equal; lra.
  - intros inp p q m. subst m. unfold Hyperbola.transformFunc.
    match goal with |- context [Math_cos ?x] => set (beta := x) end.
    assert (Hcs : cos beta * cos beta + sin beta * sin beta = 1)
      by (pose proof (sin2_cos2 beta) as T; unfold Rsqr in T; lra).
    destruct (motion_preserves_Dist (X (Hyperbola.M inp)) (Y (Hyperbola.M inp))
                (cos beta) (sin beta) p q Hcs) as (D1 & D2).
    split; [ exact D1 | ]. split; [ exact D2 | ].
    unfold image, matVecMult, innerProduct. cbn [X Y e0 e1 e2].
    destruct (Hyperbola.M inp) as [mx my]. cbn [X Y]. to_R. f_equal; lra.
  - intros mll inp p q m vertex. subst m. unfold Parabola.transformFunc.
    match goal with |- context [Math_cos ?x] => set (beta := x) end.
    assert (Hcs : cos beta * cos beta + sin beta * sin beta = 1)
      by (pose proof (sin2_cos2 beta) as T; unfold Rsqr in T; lra).
    match goal with |- context [ [< ?t; Math_cos beta; _ >] ] => set (tx := t) end.
    match goal with |- context [ [< ?t; Math_sin beta; Math_cos beta >] ] => set (ty := t) end.
    destruct (motion_preserves_Dist tx ty (cos beta) (sin beta) p q Hcs) as (D1 & D2).
    split; [ exact D1 | ]. split; [ exact D2 | ].
    subst tx ty vertex. unfold image, matVecMult, innerProduct, Parabola.usr.
    cbn [X Y e0 e1 e2]. to_R. rewrite ?Rinv_1. f_equal; field.
Qed.

(** ** The stored quadratic forms on the returned points *)

Lemma parabola_algebra (c s a b e t : R) :
  c * c + s * s = 1 ->
  let rot := [< [< lit 1; lit 0; lit 0 >];
                [< a * (lit 1 - c) + b * s; c; - s >];
                [< b * (lit 1 - c) - a * s; s; c >] >]%js in
  let T := Parabola.transformMat rot a b in
  let u := [< e * lit 4; e * lit 4 * (t + a); t * t + b * (e * lit 4) >]%js in
  matVecMult T (matVecMult rot u) = u /\
  quad ([< [< - b * (e * lit 4) - a * a; a; lit 2 * e >];
           [< a; lit (-1); lit 0 >];
           [< lit 2 * e; lit 0; lit 0 >] >]%js) u = 0.
Proof.
  intros Hcs rot T u. split.
  - subst rot T u. run_R. rewrite !Rinv_1. f_equal; nsatz.
  - subst u. run_R. rewrite !Rinv_1. ring.
Qed.

(** X6. The quadratic form a non-suspended call of the parabola stores
    vanishes on the (unnormalised) vector the same call returns, for every
    focus, directrix and parameter. *)
Theorem parabola_points_on_form mll (inp : Parabola.Inputs) (t : R) (st : Parabola.State) :
  exists v Qf,
    fst (parabola_evaluate mll inp t true st) = Ok v /\
    Parabola.quadraticform (snd (parabola_evaluate mll inp t true st)) = Some Qf /\
    quad Qf v = 0.
Proof.
  rewrite parabola_recompute_result. cbv zeta. cbn [fst snd].
  eexists; eexists. split; [ reflexivity | ]. split; [ reflexivity | ].
  rewrite quad_congruence.
  set (a := ((X (Parabola.usr (Parabola.M mll inp)) + X (Parabola.usr (Parabola.F1 inp))) * lit 0.5)%js).
  set (b := ((Y (Parabola.usr (Parabola.M mll inp)) + Y (Parabola.usr (Parabola.F1 inp))) * lit 0.5)%js).
  set (e := (Dist (Parabola.usr (Parabola.M mll inp)) (Parabola.usr (Parabola.F1 inp)) * lit 0.5)%js).
  unfold Parabola.transformFunc. fold a b.
  match goal with |- context [Math_cos ?x] => set (beta := x) end.
  assert (Hcs : cos beta * cos beta + sin beta * sin beta = 1)
    by (pose proof (sin2_cos2 beta) as T; unfold Rsqr in T; lra).
  destruct (parabola_algebra (cos beta) (sin beta) a b e t Hcs) as (E1 & E2).
  cbv zeta in E1, E2.
  etransitivity; [ | exact E2 ].
  f_equal. exact E1.
Qed.

Lemma ellipse_similarity_inverse (c s mx my ux uy : R) :
  c * c + s * s = 1 ->
  let rot := [< [< lit 1; lit 0; lit 0 >]; [< mx; c; - s >]; [< my; s; c >] >]%js in
  matVecMult (Ellipse.transformMat rot mx my) (matVecMult rot [< lit 1; ux; uy >])
  = [< 1; mx + ux; my + uy >].
Proof.
  intros Hcs rot. subst rot. run_R. rewrite !Rinv_1. f_equal; nsatz.
Qed.

Lemma ellipse_form_value (mx my a b bb cphi sphi : R) :
  cphi * cphi + sphi * sphi = 1 -> b * b = bb -> a <> 0 -> bb <> 0 ->
  quad ([< [< lit (-1) + mx * mx / (a * a) + my * my / bb; - mx / (a * a); - mx / bb >];
           [< - mx / (a * a); lit 1 / (a * a); lit 0 >];
           [< - my / bb; lit 0; lit 1 / bb >] >]%js)
       [< 1; mx + a * cphi; my + b * sphi >]
  = (my - mx) * (my + b * sphi) / bb.
Proof.
  intros Hphi Hb Ha Hbb. run_R. rewrite !Rinv_1.
  field_simplify_eq; [ | repeat split; assumption ].
  cbn [pow]. nsatz.
Qed.

(** X7. On the vector a non-suspended call of the ellipse returns, the
    quadratic form the same call stores takes the value
    (my - mx) (my + b sin phi) / b^2, with (mx, my) the midpoint of the foci:
    so the form vanishes on the returned points when the two coordinates of
    the midpoint agree, and need not otherwise. *)
Theorem ellipse_form_on_points (inp : Ellipse.Inputs) (phi : R) (st : Ellipse.State) :
  let a := Ellipse.majorAxis inp / 2 in
  let e := Dist (Ellipse.F1 inp) (Ellipse.F0 inp) / 2 in
  let b := sqrt (a * a - e * e) in
  let mx := X (Ellipse.M inp) in
  let my := Y (Ellipse.M inp) in
  0 < a * a - e * e ->
  exists v Qf,
    fst (ellipse_evaluate inp phi true st) = Ok v /\
    Ellipse.quadraticform (snd (ellipse_evaluate inp phi true st)) = Some Qf /\
    quad Qf v = (my - mx) * (my + b * sin phi) / (b * b).
Proof.
  intros a e b mx my Hbb.
  rewrite ellipse_recompute_result, ellipse_recompute_state. cbv zeta.
  eexists; eexists. split; [ reflexivity | ]. split; [ reflexivity | ].
  rewrite quad_congruence.
  assert (Ea : (Ellipse.majorAxis inp * lit 0.5)%js = a) by (subst a; to_R; lra).
  assert (Ee : (Dist (Ellipse.F1 inp) (Ellipse.F0 inp) * lit 0.5)%js = e)
    by (subst e; to_R; lra).
  rewrite Ea, Ee.
  change (Math_sqrt (a * a - e * e)%js) with b.
  fold mx my.
  unfold Ellipse.transformFunc. fold mx my.
  match goal with |- context [Math_cos ?x] =>
    match x with phi => fail 1 | _ => set (beta := x) end end.
  assert (Hcs : cos beta * cos beta + sin beta * sin beta = 1)
    by (pose proof (sin2_cos2 beta) as T; unfold Rsqr in T; lra).
  assert (Hphi : cos phi * cos phi + sin phi * sin phi = 1)
    by (pose proof (sin2_cos2 phi) as T; unfold Rsqr in T; lra).
  assert (Hb : b * b = a * a - e * e) by (unfold b; apply sqrt_sqrt; lra).
  assert (Na : a <> 0).
  { intros Z. rewrite Z in Hbb. assert (0 <= e * e) by nra. lra. }
  pose proof (ellipse_similarity_inverse (cos beta) (sin beta) mx my
                (a * cos phi) (b * sin phi) Hcs) as Inv.
  cbv zeta in Inv.
  etransitivity; [ apply f_equal; exact Inv | ].
  assert (Hb' : (a * a - e * e)%js = b * b) by (symmetry; exact Hb).
  rewrite Hb'.
  apply (ellipse_form_value mx my a b (b * b) (cos phi) (sin phi) Hphi eq_refl Na).
  rewrite Hb. lra.
Qed.

Lemma ellipse_form_on_points_witness :
  0 < Ellipse.majorAxis ellipse_vertical / 2 * (Ellipse.majorAxis ellipse_vertical / 2)
      - Dist (Ellipse.F1 ellipse_vertical) (Ellipse.F0 ellipse_vertical) / 2
        * (Dist (Ellipse.F1 ellipse_vertical) (Ellipse.F0 ellipse_vertical) / 2) /\
  exists v Qf,
    fst (ellipse_evaluate ellipse_vertical 1 true Ellipse.init) = Ok v /\
    Ellipse.quadraticform (snd (ellipse_evaluate ellipse_vertical 1 true Ellipse.init))
    = Some Qf /\
    quad Qf v = sin 1 / 3.
Proof.
  assert (Hbb : 0 < Ellipse.majorAxis ellipse_vertical / 2
                    * (Ellipse.majorAxis ellipse_vertical / 2)
                    - Dist (Ellipse.F1 ellipse_vertical) (Ellipse.F0 ellipse_vertical) / 2
                      * (Dist (Ellipse.F1 ellipse_vertical) (Ellipse.F0 ellipse_vertical) / 2)).
  { rewrite ellipse_vertical_Dist. unfold Ellipse.majorAxis, ellipse_vertical; simpl. lra. }
  split; [ exact Hbb | ].
  destruct (ellipse_form_on_points ellipse_vertical 1 Ellipse.init Hbb) as (v & Qf & Ev & Eq & Eval).
  exists v, Qf. split; [ exact Ev | ]. split; [ exact Eq | ].
  rewrite Eval, ellipse_vertical_Dist, ellipse_vertical_midpoint.
  unfold Ellipse.majorAxis, ellipse_vertical. cbn [Ellipse.axis X Y].
  replace (10 / 2 * (10 / 2) - 8 / 2 * (8 / 2)) with (3 * 3) by lra.
  rewrite sqrt_square by lra. field.
Defined.

Lemma hyperbola_similarity_inverse (c s mx my ux uy : R) :
  c * c + s * s = 1 ->
  let rot := [< [< lit 1; lit 0; lit 0 >]; [< mx; c; - s >]; [< my; s; c >] >]%js in
  matVecMult (Hyperbola.transformMat rot mx my) (matVecMult rot [< lit 1; ux; uy >])
  = [< 1; mx + ux; my + uy >].
Proof.
  intros Hcs rot. subst rot. run_R. rewrite !Rinv_1. f_equal; nsatz.
Qed.

Lemma hyperbola_form_value (mx my a b cphi sphi : R) :
  cphi * cphi + sphi * sphi = 1 -> a <> 0 -> b <> 0 -> cphi <> 0 ->
  quad ([< [< lit (-1) + mx * mx / (a * a) + my * my / (b * b); - mx / (a * a); my / (b * b) >];
           [< - mx / (a * a); lit 1 / (a * a); lit 0 >];
           [< my / (b * b); lit 0; lit (-1) / (b * b) >] >]%js)
       [< 1; mx + a / cphi; my + b * (sphi / cphi) >]
  = 2 * (my * my) / (b * b).
Proof.
  intros Hphi Ha Hb Hc. run_R. rewrite !Rinv_1.
  field_simplify_eq; [ | repeat split; assumption ].
  cbn [pow]. nsatz.
Qed.

(** X8. On the vector a non-suspended call of the hyperbola returns (for a
    major axis that is not zero and shorter than the distance of the foci, and
    [cos phi] not zero), the quadratic form the same call stores takes the
    value 2 my^2 / b^2, with my the second coordinate of the midpoint of the
    foci: so the form vanishes on the returned points when the midpoint lies on
    the x-axis, and only then. *)
Theorem hyperbola_form_on_points (inp : Hyperbola.Inputs) (phi : R) (st : Hyperbola.State) :
  let a := Hyperbola.majorAxis inp / 2 in
  let e := Dist (Hyperbola.F1 inp) (Hyperbola.F0 inp) / 2 in
  let b := sqrt (- a * a + e * e) in
  let my := Y (Hyperbola.M inp) in
  a <> 0 -> 0 < - a * a + e * e -> cos phi <> 0 ->
  exists v Qf,
    fst (hyperbola_evaluate inp phi true st) = Ok v /\
    Hyperbola.quadraticform (snd (hyperbola_evaluate inp phi true st)) = Some Qf /\
    quad Qf v = 2 * (my * my) / (b * b).
Proof.
  intros a e b my Na Hbb Hc.
  assert (Ev : hyperbola_evaluate inp phi true st
    = (Ok (matVecMult (Hyperbola.transformFunc inp)
             [< lit 1;
                (Hyperbola.majorAxis inp * lit 0.5 / Math_cos phi)%js;
                (Math_sqrt (- (Hyperbola.majorAxis inp * lit 0.5) * (Hyperbola.majorAxis inp * lit 0.5)
                            + Dist (Hyperbola.F1 inp) (Hyperbola.F0 inp) * lit 0.5
                              * (Dist (Hyperbola.F1 inp) (Hyperbola.F0 inp) * lit 0.5))
                 * Math_tan phi)%js >]),
       Hyperbola.update inp
         (Hyperbola.majorAxis inp * lit 0.5 * (Hyperbola.majorAxis inp * lit 0.5))%js
         (Math_sqrt (- (Hyperbola.majorAxis inp * lit 0.5) * (Hyperbola.majorAxis inp * lit 0.5)
                     + Dist (Hyperbola.F1 inp) (Hyperbola.F0 inp) * lit 0.5
                       * (Dist (Hyperbola.F1 inp) (Hyperbola.F0 inp) * lit 0.5))
          * Math_sqrt (- (Hyperbola.majorAxis inp * lit 0.5) * (Hyperbola.majorAxis inp * lit 0.5)
                       + Dist (Hyperbola.F1 inp) (Hyperbola.F0 inp) * lit 0.5
                         * (Dist (Hyperbola.F1 inp) (Hyperbola.F0 inp) * lit 0.5)))%js))
    by reflexivity.
  rewrite Ev. cbn [fst snd].
  eexists; eexists. split; [ reflexivity | ]. split; [ reflexivity | ].
  rewrite quad_congruence.
  assert (Ea : (Hyperbola.majorAxis inp * lit 0.5)%js = a) by (subst a; to_R; lra).
  assert (Ee : (Dist (Hyperbola.F1 inp) (Hyperbola.F0 inp) * lit 0.5)%js = e)
    by (subst e; to_R; lra).
  rewrite Ea, Ee.
  change (Math_sqrt (- a * a + e * e)%js) with b.
  fold my. set (mx := X (Hyperbola.M inp)).
  unfold Hyperbola.transformFunc. fold mx my.
  match goal with |- context [Math_cos ?x] =>
    match x with phi => fail 1 | _ => set (beta := x) end end.
  assert (Hcs : cos beta * cos beta + sin beta * sin beta = 1)
    by (pose proof (sin2_cos2 beta) as T; unfold Rsqr in T; lra).
  assert (Hphi : cos phi * cos phi + sin phi * sin phi = 1)
    by (pose proof (sin2_cos2 phi) as T; unfold Rsqr in T; lra).
  assert (Nb : b <> 0).
  { intros Z. assert (Hb : b * b = - a * a + e * e) by (unfold b; apply sqrt_sqrt; lra).
    rewrite Z in Hb. lra. }
  pose proof (hyperbola_similarity_inverse (cos beta) (sin beta) mx my
                (a / cos phi) (b * (sin phi / cos phi)) Hcs) as Inv.
  cbv zeta in Inv.
  etransitivity; [ apply f_equal; exact Inv | ].
  apply (hyperbola_form_value mx my a b (cos phi) (sin phi) Hphi Na Nb Hc).
Qed.

Lemma hyperbola_vertical_midpoint : Hyperbola.M hyperbola_vertical = mkpoint (-1) 1.
Proof. unfold Hyperbola.M, hyperbola_vertical; simpl. to_R. f_equal; lra. Qed.

Lemma hyperbola_form_on_points_witness :
  Hyperbola.majorAxis hyperbola_vertical / 2 <> 0 /\
  0 < - (Hyperbola.majorAxis hyperbola_vertical / 2) * (Hyperbola.majorAxis hyperbola_vertical / 2)
      + Dist (Hyperbola.F1 hyperbola_vertical) (Hyperbola.F0 hyperbola_vertical) / 2
        * (Dist (Hyperbola.F1 hyperbola_vertical) (Hyperbola.F0 hyperbola_vertical) / 2) /\
  cos 0 <> 0 /\
  exists v Qf,
    fst (hyperbola_evaluate hyperbola_vertical 0 true Hyperbola.init) = Ok v /\
    Hyperbola.quadraticform (snd (hyperbola_evaluate hyperbola_vertical 0 true Hyperbola.init))
    = Some Qf /\
    quad Qf v = 2 / 7.
Proof.
  assert (Na : Hyperbola.majorAxis hyperbola_vertical / 2 <> 0)
    by (unfold Hyperbola.majorAxis, hyperbola_vertical; simpl; lra).
  assert (Hbb : 0 < - (Hyperbola.majorAxis hyperbola_vertical / 2)
                      * (Hyperbola.majorAxis hyperbola_vertical / 2)
                    + Dist (Hyperbola.F1 hyperbola_vertical) (Hyperbola.F0 hyperbola_vertical) / 2
                      * (Dist (Hyperbola.F1 hyperbola_vertical) (Hyperbola.F0 hyperbola_vertical) / 2)).
  { rewrite hyperbola_vertical_Dist. unfold Hyperbola.majorAxis, hyperbola_vertical; simpl. lra. }
  assert (Hc : cos 0 <> 0) by (rewrite cos_0; lra).
  split; [ exact Na | ]. split; [ exact Hbb | ]. split; [ exact Hc | ].
  destruct (hyperbola_form_on_points hyperbola_vertical 0 Hyperbola.init Na Hbb Hc)
    as (v & Qf & Ev & Eq & Eval).
  exists v, Qf. split; [ exact Ev | ]. split; [ exact Eq | ].
  rewrite Eval, hyperbola_vertical_Dist, hyperbola_vertical_midpoint.
  unfold Hyperbola.majorAxis, hyperbola_vertical. cbn [Hyperbola.axis X Y].
  replace (- (6 / 2) * (6 / 2) + 8 / 2 * (8 / 2)) with 7 by lra.
  rewrite sqrt_sqrt by lra. field.
Defined.


(** ** The general conic *)

(** The in-place loop that fills [M] overwrites all nine entries. *)
Lemma fill_closed_form {num} `{Number num} (d : idx -> idx -> num) (M : mat num) :
  Conic.fill d M
  = [< [< d I0 I0; d I0 I1; d I0 I2 >];
       [< d I0 I1; d I1 I1; d I1 I2 >];
       [< d I0 I2; d I1 I2; d I2 I2 >] >].
Proof.
  destruct M as [[m00 m01 m02] [m10 m11 m12] [m20 m21 m22]]. reflexivity.
Qed.

(** X9. A conic given by six coefficients (a00, a11, a22, a01, a02, a12):
    after a non-suspended call the stored quadratic form is the symmetric
    matrix with the constant term a22 in the corner [0][0], and on a vector
    (w, x, y) it is the polynomial
    a00 x^2 + a11 y^2 + a22 w^2 + 2 a01 x y + 2 a02 x w + 2 a12 y w. *)
Theorem six_coefficients_form J (a00 a11 a22 a01 a02 a12 : R) (phi : R) (st : Conic.State) :
  let st' := snd (conic_evaluate J (Conic.SixCoefficients a00 a11 a22 a01 a02 a12) phi true st) in
  Conic.quadraticform st' = Some (Conic.M st') /\
  Conic.M st' = [< [< a22; a02; a12 >]; [< a02; a00; a01 >]; [< a12; a01; a11 >] >] /\
  forall w x y : R,
    quad (Conic.M st') [< w; x; y >]
    = a00 * (x * x) + a11 * (y * y) + a22 * (w * w)
      + 2 * a01 * (x * y) + 2 * a02 * (x * w) + 2 * a12 * (y * w).
Proof.
  intros st'. subst st'. rewrite conic_recompute_state.
  assert (E : Conic.M (Conic.update J (Conic.SixCoefficients a00 a11 a22 a01 a02 a12) st)
              = [< [< a22; a02; a12 >]; [< a02; a00; a01 >]; [< a12; a01; a11 >] >]).
  { change (Conic.M (Conic.update J (Conic.SixCoefficients a00 a11 a22 a01 a02 a12) st))
      with (Conic.fill (Conic.definingMat a00 a11 a22 a01 a02 a12) (Conic.M st)).
    rewrite fill_closed_form. reflexivity. }
  split; [ reflexivity | ]. split; [ exact E | ].
  intros w x y. rewrite E. run_R. ring.
Qed.

Lemma conic_update_M_symmetric J (inp : Conic.Inputs) (st : Conic.State) :
  symmetric (Conic.M (Conic.update J inp st)).
Proof.
  destruct inp as [p0 p1 p2 p3 p4 | q0 q1 q2 q3 q4 q5].
  - apply fitConic_symmetric; apply sym_symmetric.
  - apply fill_symmetric.
Qed.

(** X10. After a non-suspended call, on five points or on six coefficients,
    [curve.midpoint] returns homogeneous coordinates c of the centre of the
    stored form: the second and third components of [M c] are zero (the
    gradient of the form vanishes at c), and the first component of c is the
    minor m11 m22 - m12^2. *)
Theorem midpoint_is_centre J (inp : Conic.Inputs) (phi : R) (st : Conic.State) :
  let st' := snd (conic_evaluate J inp phi true st) in
  exists c,
    Conic.midpoint st' = Ok c /\
    e1 (matVecMult (Conic.M st') c) = 0 /\
    e2 (matVecMult (Conic.M st') c) = 0 /\
    e0 c = mget (Conic.M st') I1 I1 * mget (Conic.M st') I2 I2
           - mget (Conic.M st') I1 I2 * mget (Conic.M st') I1 I2.
Proof.
  intros st'. subst st'. rewrite conic_recompute_state.
  pose proof (conic_update_M_symmetric J inp st) as S.
  unfold Conic.midpoint.
  change (Conic.quadraticform (Conic.update J inp st))
    with (Some (Conic.M (Conic.update J inp st))).
  eexists. split; [ reflexivity | ].
  pose proof (S I0 I1) as S01. pose proof (S I0 I2) as S02. pose proof (S I1 I2) as S12.
  destruct (Conic.M (Conic.update J inp st)) as [[m00 m01 m02] [m10 m11 m12] [m20 m21 m22]].
  cbv [mget vget e0 e1 e2] in S01, S02, S12. subst m10 m20 m21.
  repeat split; run_R; ring.
Qed.






Lemma fitConic_coincident (p0 p1 p2 p3 p4 : vec R) :
  p0 = p1 \/ p0 = p2 \/ p0 = p3 \/ p0 = p4 \/ p1 = p2 \/
  p1 = p3 \/ p1 = p4 \/ p2 = p3 \/ p2 = p4 \/ p3 = p4 ->
  Conic.fitConic (Conic.degconic (crossProduct p0 p1) (crossProduct p2 p3))
                 (Conic.degconic (crossProduct p0 p2) (crossProduct p1 p3)) p4
  = [< [< 0; 0; 0 >]; [< 0; 0; 0 >]; [< 0; 0; 0 >] >].
Proof.
  intros H.
  destruct p0 as [x0 y0 z0], p1 as [x1 y1 z1], p2 as [x2 y2 z2],
           p3 as [x3 y3 z3], p4 as [x4 y4 z4].
  repeat (destruct H as [ H | H ]; [ injection H as -> -> ->;
    apply mat_ext; intros [] []; run_R; ring | ]).
  injection H as -> -> ->. apply mat_ext; intros [] []; run_R; ring.
Qed.

(** X12. Five points of which two coincide define no conic: after a
    non-suspended call the stored quadratic form is the zero matrix, and
    [curve.midpoint] returns (0, 0, 0). *)
Theorem coincident_points_zero_form J (p0 p1 p2 p3 p4 : vec R) (phi : R) (st : Conic.State) :
  p0 = p1 \/ p0 = p2 \/ p0 = p3 \/ p0 = p4 \/ p1 = p2 \/
  p1 = p3 \/ p1 = p4 \/ p2 = p3 \/ p2 = p4 \/ p3 = p4 ->
  Conic.quadraticform (snd (conic_evaluate J (Conic.FivePoints p0 p1 p2 p3 p4) phi true st))
  = Some [< [< 0; 0; 0 >]; [< 0; 0; 0 >]; [< 0; 0; 0 >] >] /\
  Conic.midpoint (snd (conic_evaluate J (Conic.FivePoints p0 p1 p2 p3 p4) phi true st))
  = Ok [< 0; 0; 0 >].
Proof.
  intros H.
  assert (E : Conic.quadraticform
                (snd (conic_evaluate J (Conic.FivePoints p0 p1 p2 p3 p4) phi true st))
              = Some [< [< 0; 0; 0 >]; [< 0; 0; 0 >]; [< 0; 0; 0 >] >]).
  { rewrite five_points_quadraticform. f_equal. apply fitConic_coincident. exact H. }
  split; [ exact E | ].
  unfold Conic.midpoint. rewrite E. cbv [mget vget e0 e1 e2]. to_R. f_equal. f_equal; lra.
Qed.

Lemma coincident_points_zero_form_witness :
  Conic.quadraticform (snd (conic_evaluate Jacobi_diagonal five_points_repeated 0 true Conic.init))
  = Some [< [< 0; 0; 0 >]; [< 0; 0; 0 >]; [< 0; 0; 0 >] >] /\
  Conic.midpoint (snd (conic_evaluate Jacobi_diagonal five_points_repeated 0 true Conic.init))
  = Ok [< 0; 0; 0 >].
Proof.
  apply (coincident_points_zero_form Jacobi_diagonal
           [< 1; 1; 5 >] [< 1; 1; 5 >] [< 1; 2; 0 >] [< 1; 0; 0 >] [< 1; -1; 5 >] 0 Conic.init).
  left. reflexivity.
Defined.

(** ** Sequences of calls *)

(** A family of calls on a cache that is undefined until the first update. *)
Section CallSequences.
Variables (I S A num : Type).
Variable step : I * num * bool -> S -> result A * S.
Variable undefined : S -> Prop.
Hypothesis suspended_keeps : forall c st, suspended c = true -> snd (step c st) = st.
Hypothesis update_defines : forall c st, suspended c = false -> ~ undefined (snd (step c st)).
Hypothesis throws_iff :
  forall c st, fst (step c st) = TypeError <-> undefined st /\ suspended c = true.

Lemma after_undefined (calls : list (I * num * bool)) (st : S) :
  undefined (after step calls st) <-> undefined st /\ forallb suspended calls = true.
Proof.
  revert st. induction calls as [ | c calls IH ]; intros st.
  - simpl. tauto.
  - simpl. rewrite IH. destruct (suspended c) eqn:E.
    + rewrite (suspended_keeps c st E). simpl. tauto.
    + pose proof (update_defines c st E). simpl.
      split; [ tauto | intros [ _ F ]; discriminate ].
Qed.

Lemma throws_iff_never_updated (init : S) (calls : list (I * num * bool)) (c : I * num * bool) :
  undefined init ->
  (fst (step c (after step calls init)) = TypeError
   <-> forallb suspended (calls ++ [c]) = true).
Proof.
  intros U. rewrite throws_iff, after_undefined, forallb_app.
  simpl. rewrite andb_true_r, andb_true_iff. tauto.
Qed.

End CallSequences.

Section CallHistory.
Context {num : Type} `{Number num}.

(** X13. Over any sequence of calls on a fresh ellipse, hyperbola or
    parabola, a call throws exactly when it and all the calls before it were
    suspended: one non-suspended call, with any inputs, defines the cache
    for good.  For the general conic the eigen data are undefined exactly
    as long as every call was suspended, and a call throws while they
    are. *)
Theorem call_throws_iff_never_updated :
  (forall (calls : list (Ellipse.Inputs * num * bool)) c,
     fst (ellipse_call c (after ellipse_call calls Ellipse.init)) = TypeError
     <-> forallb suspended (calls ++ [c]) = true) /\
  (forall (calls : list (Hyperbola.Inputs * num * bool)) c,
     fst (hyperbola_call c (after hyperbola_call calls Hyperbola.init)) = TypeError
     <-> forallb suspended (calls ++ [c]) = true) /\
  (forall mll (calls : list (Parabola.Inputs * num * bool)) c,
     fst (parabola_call mll c (after (parabola_call mll) calls Parabola.init)) = TypeError
     <-> forallb suspended (calls ++ [c]) = true) /\
  (forall J (calls : list (Conic.Inputs * num * bool)) c,
     (Conic.frame (after (conic_call J) calls Conic.init) = None
      <-> forallb suspended calls = true) /\
     (forallb suspended (calls ++ [c]) = true ->
      fst (conic_call J c (after (conic_call J) calls Conic.init)) = TypeError)).
Proof.
  split; [ | split; [ | split ] ].
  - intros calls c.
    apply (@throws_iff_never_updated _ _ _ _ (ellipse_call) (fun st => Ellipse.rotationMatrix st = None)).
    + intros [[inp phi] s] st E. unfold suspended in E; simpl in E. subst s.
      apply ellipse_suspended_state.
    + intros [[inp phi] s] st E. unfold suspended in E; simpl in E. subst s. discriminate.
    + intros [[inp phi] s] st. unfold ellipse_call, suspended; simpl. destruct s.
      * unfold Ellipse.polarForm; simpl. destruct (Ellipse.rotationMatrix st); simpl.
        -- split; [ discriminate | intros [ E _ ]; discriminate ].
        -- tauto.
      * split; [ discriminate | intros [ _ E ]; discriminate ].
    + reflexivity.
  - intros calls c.
    apply (@throws_iff_never_updated _ _ _ _ (hyperbola_call) (fun st => Hyperbola.rotationMatrix st = None)).
    + intros [[inp phi] s] st E. unfold suspended in E; simpl in E. subst s.
      apply hyperbola_suspended_state.
    + intros [[inp phi] s] st E. unfold suspended in E; simpl in E. subst s. discriminate.
    + intros [[inp phi] s] st. unfold hyperbola_call, suspended; simpl. destruct s.
      * unfold Hyperbola.polarForm; simpl. destruct (Hyperbola.rotationMatrix st); simpl.
        -- split; [ discriminate | intros [ E _ ]; discriminate ].
        -- tauto.
      * split; [ discriminate | intros [ _ E ]; discriminate ].
    + reflexivity.
  - intros mll calls c.
    apply (@throws_iff_never_updated _ _ _ _ (parabola_call mll) (fun st => Parabola.rotationMatrix st = None)).
    + intros [[inp phi] s] st E. unfold suspended in E; simpl in E. subst s.
      apply parabola_suspended_state.
    + intros [[inp phi] s] st E. unfold suspended in E; simpl in E. subst s. discriminate.
    + intros [[inp phi] s] st. unfold parabola_call, suspended; simpl. destruct s.
      * unfold Parabola.polarForm; simpl. destruct (Parabola.rotationMatrix st); simpl.
        -- split; [ discriminate | intros [ E _ ]; discriminate ].
        -- tauto.
      * split; [ discriminate | intros [ _ E ]; discriminate ].
    + reflexivity.
  - intros J calls c.
    assert (F : forall calls st,
               Conic.frame (after (conic_call J) calls st) = None
               <-> Conic.frame st = None /\ forallb suspended calls = true).
    { intros cs. induction cs as [ | [[inp phi] s] cs IH ]; intros st.
      - simpl. tauto.
      - simpl. rewrite IH. unfold conic_call at 1, suspended at 2. simpl. destruct s.
        + rewrite conic_suspended_state. simpl. tauto.
        + change (Conic.polarForm J inp phi false st)
            with (Conic.polarForm J inp phi true (Conic.update J inp st)).
          rewrite conic_suspended_state. simpl.
          split; [ intros [ E _ ]; discriminate | intros [ _ E ]; discriminate ]. }
    split.
    + rewrite F. simpl. tauto.
    + rewrite forallb_app. simpl. rewrite andb_true_r, andb_true_iff. intros [ Hs Hc ].
      destruct c as [[inp phi] s]. unfold suspended in Hc; simpl in Hc. subst s.
      unfold conic_call; simpl. unfold Conic.polarForm; simpl.
      rewrite (proj2 (F calls Conic.init) (conj eq_refl Hs)). reflexivity.
Qed.

Lemma conic_update_M_forgets J (inp : Conic.Inputs) (st st' : Conic.State) :
  Conic.M (Conic.update J inp st) = Conic.M (Conic.update J inp st').
Proof.
  destruct inp as [p0 p1 p2 p3 p4 | q0 q1 q2 q3 q4 q5].
  - reflexivity.
  - change (Conic.fill (Conic.definingMat q0 q1 q2 q3 q4 q5) (Conic.M st)
            = Conic.fill (Conic.definingMat q0 q1 q2 q3 q4 q5) (Conic.M st')).
    now rewrite !fill_closed_form.
Qed.

Lemma conic_result_reads (J : mat num -> mat num * mat num) (inp : Conic.Inputs) (phi : num)
    (s1 s2 : Conic.State) :
  Conic.frame s1 = Conic.frame s2 -> Conic.rotationMatrix s1 = Conic.rotationMatrix s2 ->
  fst (Conic.polarForm J inp phi true s1) = fst (Conic.polarForm J inp phi true s2).
Proof.
  intros F R. unfold Conic.polarForm. simpl negb. cbv iota. rewrite F, R.
  destruct (Conic.frame s2) as [ fr | ]; [ | reflexivity ].
  destruct (Conic.select _ _) as [ br | ]; [ destruct br | ]; reflexivity.
Qed.

(** X14. A non-suspended call forgets the history: its result and the state
    it leaves do not depend on the state it finds.  For the general conic,
    which fills the shared matrix [M] in place, this holds because the fill
    overwrites all nine entries. *)
Theorem recompute_forgets_history :
  (forall (inp : Ellipse.Inputs) (phi : num) (st st' : Ellipse.State),
     Ellipse.polarForm inp phi false st = Ellipse.polarForm inp phi false st') /\
  (forall (inp : Hyperbola.Inputs) (phi : num) (st st' : Hyperbola.State),
     Hyperbola.polarForm inp phi false st = Hyperbola.polarForm inp phi false st') /\
  (forall mll (inp : Parabola.Inputs) (t : num) (st st' : Parabola.State),
     Parabola.polarForm mll inp t false st = Parabola.polarForm mll inp t false st') /\
  (forall J (inp : Conic.Inputs) (phi : num) (st st' : Conic.State),
     let r := Conic.polarForm J inp phi false st in
     let r' := Conic.polarForm J inp phi false st' in
     fst r = fst r' /\
     Conic.M (snd r) = Conic.M (snd r') /\
     Conic.quadraticform (snd r) = Conic.quadraticform (snd r') /\
     Conic.rotationMatrix (snd r) = Conic.rotationMatrix (snd r') /\
     Conic.frame (snd r) = Conic.frame (snd r')).
Proof.
  split; [ reflexivity | ]. split; [ reflexivity | ]. split; [ reflexivity | ].
  intros J inp phi st st' r r'.
  assert (Sr : snd r = Conic.update J inp st) by apply (conic_recompute_state J inp phi st).
  assert (Sr' : snd r' = Conic.update J inp st') by apply (conic_recompute_state J inp phi st').
  pose proof (conic_update_M_forgets J inp st st') as EM.
  assert (EF : Conic.frame (Conic.update J inp st) = Conic.frame (Conic.update J inp st')).
  { rewrite !conic_update_frame. cbv zeta. now rewrite EM. }
  assert (ER : Conic.rotationMatrix (Conic.update J inp st)
               = Conic.rotationMatrix (Conic.update J inp st')).
  { rewrite !conic_update_rotation. cbv zeta. now rewrite EM. }
  split.
  - change r with (Conic.polarForm J inp phi true (Conic.update J inp st)).
    change r' with (Conic.polarForm J inp phi true (Conic.update J inp st')).
    now apply conic_result_reads.
  - rewrite Sr, Sr'. split; [ exact EM | ].
    split; [ | split; [ exact ER | exact EF ] ].
    change (Some (Conic.M (Conic.update J inp st)) = Some (Conic.M (Conic.update J inp st'))).
    now rewrite EM.
Qed.

End CallHistory.

(** ** The parameter *)

Lemma cos_full_turn (x : R) : cos (x + 2 * PI) = cos x.
Proof. rewrite cos_plus, cos_2PI, sin_2PI. ring. Qed.

Lemma sin_full_turn (x : R) : sin (x + 2 * PI) = sin x.
Proof. rewrite sin_plus, cos_2PI, sin_2PI. ring. Qed.

Lemma tan_full_turn (x : R) : tan (x + 2 * PI) = tan x.
Proof. unfold tan. now rewrite cos_full_turn, sin_full_turn. Qed.

(** X15. The parametrisations of the ellipse, of the hyperbola and of the
    general conic are periodic: a call at [phi + 2 PI] returns what the call
    at [phi] returns and leaves the same state, suspended or not.  On the
    ellipse the points at [phi] and [phi + PI] are mirror images in the
    midpoint [M] of the foci. *)
Theorem parametrisation_is_periodic :
  (forall (inp : Ellipse.Inputs) (phi : R) (s : bool) (st : Ellipse.State),
     Ellipse.polarForm inp (phi + 2 * PI) s st = Ellipse.polarForm inp phi s st) /\
  (forall (inp : Hyperbola.Inputs) (phi : R) (s : bool) (st : Hyperbola.State),
     Hyperbola.polarForm inp (phi + 2 * PI) s st = Hyperbola.polarForm inp phi s st) /\
  (forall J (inp : Conic.Inputs) (phi : R) (s : bool) (st : Conic.State),
     Conic.polarForm J inp (phi + 2 * PI) s st = Conic.polarForm J inp phi s st) /\
  (forall (inp : Ellipse.Inputs) (phi : R) (st : Ellipse.State),
     exists v v',
       fst (Ellipse.polarForm inp phi false st) = Ok v /\
       fst (Ellipse.polarForm inp (phi + PI) false st) = Ok v' /\
       e1 v + e1 v' = 2 * X (Ellipse.M inp) /\
       e2 v + e2 v' = 2 * Y (Ellipse.M inp)).
Proof.
  split; [ | split; [ | split ] ].
  - intros inp phi s st. unfold Ellipse.polarForm.
    change (Math_cos (phi + 2 * PI)) with (cos (phi + 2 * PI)).
    change (Math_sin (phi + 2 * PI)) with (sin (phi + 2 * PI)).
    rewrite cos_full_turn, sin_full_turn. reflexivity.
  - intros inp phi s st. unfold Hyperbola.polarForm.
    change (Math_cos (phi + 2 * PI)) with (cos (phi + 2 * PI)).
    change (Math_tan (phi + 2 * PI)) with (tan (phi + 2 * PI)).
    rewrite cos_full_turn, tan_full_turn. reflexivity.
  - intros J inp phi s st. unfold Conic.polarForm.
    change (Math_cos (phi + 2 * PI)) with (cos (phi + 2 * PI)).
    change (Math_sin (phi + 2 * PI)) with (sin (phi + 2 * PI)).
    rewrite cos_full_turn, sin_full_turn. reflexivity.
  - intros inp phi st.
    pose proof (ellipse_recompute_result inp phi st) as E1.
    pose proof (ellipse_recompute_result inp (phi + PI) st) as E2.
    cbv zeta in E1, E2.
    eexists; eexists. split; [ exact E1 | ]. split; [ exact E2 | ].
    unfold Ellipse.transformFunc, matVecMult, innerProduct. cbn [e0 e1 e2]. to_R.
    rewrite neg_cos, neg_sin. split; field.
Qed.
